(** * Cloud MegaMerge: the document list, its reordering handlers and the
      merge pipeline of [src/App.tsx], with the helpers of [src/utils.ts]
      and the data model of [src/types.ts].

    React state ([useState]) is modelled by explicit state passing: every
    handler of [App] is a function on [State], a record holding the
    component state together with the part of the browser the handlers
    act on (object URLs, alerts, console, downloads).  A handler that can
    hit a JavaScript [TypeError] returns a [result]. *)

From Stdlib Require Import ZArith QArith.
From stdpp Require Import base decidable option numbers list gmap sets strings.

Local Open Scope Z_scope.

(** ** JavaScript primitives used by the handlers *)

(** Outcome of code that may throw. *)
Inductive result (A : Type) : Type :=
  | Ok (a : A)
  | Throw (e : string).
Arguments Ok {A} a.
Arguments Throw {A} e.

#[global] Instance result_ret : MRet result := λ A a, Ok a.
#[global] Instance result_bind : MBind result := λ A B k r,
  match r with
  | Ok a => k a
  | Throw e => Throw e
  end.

Definition TypeError_undefined_id : string :=
  "TypeError: Cannot read properties of undefined (reading 'id')".

Module JS.

(** [Array.prototype.findIndex]: index of the first element satisfying
    the predicate, [-1] when there is none. *)
Definition findIndex {A} (P : A → Prop) `{∀ x, Decision (P x)}
    (l : list A) : Z :=
  match list_find P l with
  | Some (i, _) => Z.of_nat i
  | None => -1
  end.

(** [Array.prototype.splice (start, deleteCount, ...items)] on a copy:
    the removed elements and the array after the call.  A negative
    [start] counts from the end, and both arguments are clamped to the
    array, as ECMAScript prescribes. *)
Definition splice {A} (arr : list A) (start deleteCount : Z)
    (items : list A) : list A * list A :=
  let len := Z.of_nat (length arr) in
  let actualStart :=
    if start <? 0 then Z.max (len + start) 0 else Z.min start len in
  let actualDeleteCount := Z.min (Z.max deleteCount 0) (len - actualStart) in
  let s := Z.to_nat actualStart in
  let d := Z.to_nat actualDeleteCount in
  (take d (drop s arr), take s arr ++ items ++ drop (s + d) arr).

(** Numbers as far as the handlers need them: integers and the two
    infinities ([Math.min()] is [Infinity], [Math.max()] is
    [-Infinity]). *)
Inductive number : Type :=
  | Int (z : Z)
  | Infinity
  | NegInfinity.

Definition min2 (a b : number) : number :=
  match a, b with
  | NegInfinity, _ | _, NegInfinity => NegInfinity
  | Infinity, x | x, Infinity => x
  | Int x, Int y => Int (Z.min x y)
  end.

Definition max2 (a b : number) : number :=
  match a, b with
  | Infinity, _ | _, Infinity => Infinity
  | NegInfinity, x | x, NegInfinity => x
  | Int x, Int y => Int (Z.max x y)
  end.

(** [Math.min(...xs)] and [Math.max(...xs)]. *)
Definition Math_min (xs : list Z) : number :=
  foldr (λ x acc, min2 (Int x) acc) Infinity xs.
Definition Math_max (xs : list Z) : number :=
  foldr (λ x acc, max2 (Int x) acc) NegInfinity xs.

(** [n + k] for an integer [k]. *)
Definition plus (n : number) (k : Z) : number :=
  match n with
  | Int z => Int (z + k)
  | Infinity => Infinity
  | NegInfinity => NegInfinity
  end.

(** [n === k] for an integer [k]. *)
Definition strict_eq (n : number) (k : Z) : bool :=
  match n with
  | Int z => bool_decide (z = k)
  | _ => false
  end.

(** [arr[n]]: [None] stands for [undefined]. *)
Definition index {A} (arr : list A) (n : number) : option A :=
  match n with
  | Int z => if z <? 0 then None else arr !! Z.to_nat z
  | _ => None
  end.

(** [String.prototype.substr (start, length)] for non-negative
    arguments. *)
Definition substr (start len : nat) (s : string) : string :=
  String.substring start len s.

(** [String.prototype.toLowerCase], on the ASCII letters. *)
Definition lower_ascii (c : Ascii.ascii) : Ascii.ascii :=
  let n := Ascii.nat_of_ascii c in
  if (Nat.leb 65 n && Nat.leb n 90)%bool
  then Ascii.ascii_of_nat (n + 32) else c.

Fixpoint toLowerCase (s : string) : string :=
  match s with
  | EmptyString => EmptyString
  | String c s' => String (lower_ascii c) (toLowerCase s')
  end.

(** [String.prototype.endsWith] and [startsWith]. *)
Definition endsWith (s suffix : string) : bool :=
  let n := String.length s in
  let k := String.length suffix in
  (Nat.leb k n && String.eqb (String.substring (n - k) k s) suffix)%bool.

Definition startsWith (s pre : string) : bool :=
  String.prefix pre s.

End JS.

(** ** @dnd-kit/sortable *)

(** Modelled from the spec: [arrayMove] is imported from the package
    @dnd-kit/sortable, whose code is not part of the repository.  The spec
    describes it as "remove the entry at activeId's index and reinsert it
    at overId's index (a standard array move-element operation), shifting
    intermediate entries accordingly".  The package implements this as
    [newArray.splice (to < 0 ? newArray.length + to : to, 0,
    newArray.splice (from, 1)[0])] on a copy: the insertion index is
    computed before the removal.  When nothing is removed (an empty array)
    the inserted value is [undefined]; the list then holds a hole that no
    reader of [DocFile[]] survives, which is [None] here. *)
Definition arrayMove {A} (array : list A) (from to : Z) : option (list A) :=
  let len := Z.of_nat (length array) in
  let to' := if to <? 0 then len + to else to in
  let '(removed, rest) := JS.splice array from 1 [] in
  match removed with
  | [] => None
  | x :: _ => Some (JS.splice rest to' 0 [x]).2
  end.

(** ** src/types.ts *)

Inductive DocType : Type := pdf | image | office | text.

#[global] Instance DocType_eq_dec : EqDecision DocType.
Proof. solve_decision. Defined.

Definition OFFICE_EXTENSIONS : list string :=
  [".doc"; ".docx"; ".xls"; ".xlsx"; ".ppt"; ".pptx"].
Definition IMAGE_EXTENSIONS : list string :=
  [".png"; ".jpg"; ".jpeg"; ".webp"].

(** The browser's [File]: name, size, MIME type, and the bytes that
    [arrayBuffer ()] resolves to ([None] when the read is rejected). *)
Module File.
Record t : Type := mk {
  name : string;
  size : Z;
  type : string;
  arrayBuffer : option (list Byte.byte);
}.
End File.

(** An object URL handed out by [URL.createObjectURL]. *)
Definition ObjectURL : Type := nat.

Module DocFile.
Record t : Type := mk {
  id : string;
  file : File.t;
  name : string;
  size : Z;
  type : DocType;
  previewUrl : option ObjectURL;
  rotation : Z;
}.

Definition with_rotation (r : Z) (f : t) : t :=
  mk (id f) (file f) (name f) (size f) (type f) (previewUrl f) r.
End DocFile.

(** ** src/utils.ts *)

Definition getFileType (fileName : string) : DocType :=
  let lower := JS.toLowerCase fileName in
  if JS.endsWith lower ".pdf" then pdf
  else if existsb (λ ext, JS.endsWith lower ext) IMAGE_EXTENSIONS then image
  else if existsb (λ ext, JS.endsWith lower ext) OFFICE_EXTENSIONS then office
  else text.

(** [generateId = () => Math.random ().toString (36).substr (2, 9)].  The
    argument is the base-36 rendering of the number drawn by
    [Math.random ()], such as ["0.4fzyo82mvyq"]; the draw itself belongs
    to the environment. *)
Definition generateId (random_base36 : string) : string :=
  JS.substr 2 9 random_base36.

(** ** The pdf-lib primitives used by the merge pipeline *)

Module PDF.

Inductive StandardFonts : Type := HelveticaBold | Helvetica.

(** An embedded image, with its native dimensions. *)
Record Image : Type := mkImage {
  width : Q;
  height : Q;
}.

Definition Color : Type := (Q * Q * Q)%type.

(** What has been drawn on a page, in drawing order. *)
Inductive DrawOp : Type :=
  | drawImage (img : Image) (x y w h : Q)
  | drawText (s : string) (x y size : Q) (font : StandardFonts) (color : Color)
  | drawRectangle (x y w h : Q) (borderColor : Color) (borderWidth : Q).

(** A page: its size, its [/Rotate] entry in degrees, its content. *)
Record Page : Type := mkPage {
  getSize : Q * Q;
  getRotation : Z;
  content : list DrawOp;
}.

(** Modelled from the spec: [page.setRotation (degrees (angle))] of the
    package pdf-lib, whose code is not part of the repository ("set its
    rotation to ..."): the page's rotation becomes the angle passed, as
    it is. *)
Definition setRotation (angle : Z) (p : Page) : Page :=
  mkPage (getSize p) angle (content p).

(** [page.drawImage], [page.drawText], [page.drawRectangle]. *)
Definition draw (op : DrawOp) (p : Page) : Page :=
  mkPage (getSize p) (getRotation p) (content p ++ [op]).

(** A page as [addPage ([w, h])] creates it. *)
Definition blank (w h : Q) : Page := mkPage (w, h) 0 [].

(** The calls whose outcome depends on what they are given, taken as
    they come from the library: loading a source document and copying
    all its pages ([PDFDocument.load], [getPageIndices], [copyPages]:
    the copies come in page order), embedding an image, embedding a
    standard font, measuring a text in a font, and encoding a text in a
    font, which [page.drawText] does before it draws.  [None] is a
    rejected promise for the first four and a thrown exception for the
    last two: a font measures and encodes only the texts made of its own
    characters. *)
Record Lib : Type := mkLib {
  load : list Byte.byte → option (list Page);
  embedJpg : list Byte.byte → option Image;
  embedPng : list Byte.byte → option Image;
  embedFont : StandardFonts → option StandardFonts;
  widthOfTextAtSize : StandardFonts → string → Q → option Q;
  encodeText : StandardFonts → string → option string;
}.

Definition rgb (r g b : Q) : Color := (r, g, b).

End PDF.

(** ** The state of [App] and of the browser around it *)

Record State : Type := mkState {
  (* useState *)
  files : list DocFile.t;
  selectedIds : gset string;
  fileName : string;
  isDragging : bool;
  isProcessing : bool;
  (* URL.createObjectURL / URL.revokeObjectURL *)
  objectURLs : gset ObjectURL;
  nextObjectURL : ObjectURL;
  revokedURLs : list ObjectURL;
  (* alert, console.error, and the files the user was handed *)
  alerts : list string;
  consoleErrors : list string;
  downloads : list (string * list PDF.Page);
}.

Definition initialState : State :=
  mkState [] ∅ EmptyString false false ∅ 0%nat [] [] [] [].

Definition setFiles (fs : list DocFile.t) (st : State) : State :=
  mkState fs (selectedIds st) (fileName st) (isDragging st) (isProcessing st)
    (objectURLs st) (nextObjectURL st) (revokedURLs st)
    (alerts st) (consoleErrors st) (downloads st).

Definition setSelectedIds (s : gset string) (st : State) : State :=
  mkState (files st) s (fileName st) (isDragging st) (isProcessing st)
    (objectURLs st) (nextObjectURL st) (revokedURLs st)
    (alerts st) (consoleErrors st) (downloads st).

Definition setFileName (n : string) (st : State) : State :=
  mkState (files st) (selectedIds st) n (isDragging st) (isProcessing st)
    (objectURLs st) (nextObjectURL st) (revokedURLs st)
    (alerts st) (consoleErrors st) (downloads st).

Definition setIsDragging (b : bool) (st : State) : State :=
  mkState (files st) (selectedIds st) (fileName st) b (isProcessing st)
    (objectURLs st) (nextObjectURL st) (revokedURLs st)
    (alerts st) (consoleErrors st) (downloads st).

Definition setIsProcessing (b : bool) (st : State) : State :=
  mkState (files st) (selectedIds st) (fileName st) (isDragging st) b
    (objectURLs st) (nextObjectURL st) (revokedURLs st)
    (alerts st) (consoleErrors st) (downloads st).

(** [URL.createObjectURL]: a URL that was never handed out before. *)
Definition createObjectURL (st : State) : ObjectURL * State :=
  let url := nextObjectURL st in
  (url,
   mkState (files st) (selectedIds st) (fileName st) (isDragging st)
     (isProcessing st) ({[url]} ∪ objectURLs st) (S url) (revokedURLs st)
     (alerts st) (consoleErrors st) (downloads st)).

Definition revokeObjectURL (url : ObjectURL) (st : State) : State :=
  mkState (files st) (selectedIds st) (fileName st) (isDragging st)
    (isProcessing st) (objectURLs st ∖ {[url]}) (nextObjectURL st)
    (revokedURLs st ++ [url]) (alerts st) (consoleErrors st) (downloads st).

Definition alert (msg : string) (st : State) : State :=
  mkState (files st) (selectedIds st) (fileName st) (isDragging st)
    (isProcessing st) (objectURLs st) (nextObjectURL st) (revokedURLs st)
    (alerts st ++ [msg]) (consoleErrors st) (downloads st).

Definition console_error (msg : string) (st : State) : State :=
  mkState (files st) (selectedIds st) (fileName st) (isDragging st)
    (isProcessing st) (objectURLs st) (nextObjectURL st) (revokedURLs st)
    (alerts st) (consoleErrors st ++ [msg]) (downloads st).

(** Clicking the link created by [handleMerge]. *)
Definition download (name : string) (doc : list PDF.Page) (st : State) : State :=
  mkState (files st) (selectedIds st) (fileName st) (isDragging st)
    (isProcessing st) (objectURLs st) (nextObjectURL st) (revokedURLs st)
    (alerts st) (consoleErrors st) (downloads st ++ [(name, doc)]).

(** The ids of a list, in list order: [files.map (f => f.id)]. *)
Definition ids (fs : list DocFile.t) : list string := DocFile.id <$> fs.

(** ** The handlers of [App] *)

Implicit Types (st : State) (f : DocFile.t) (sel : gset string).

(** [handleFilesSelected]: the [map] callback over [Array.from (fileList)].
    Each file comes with the rendering of the number [Math.random ()]
    returns when [generateId ()] is called for it. *)
Fixpoint newFilesOf (fileList : list (File.t * string)) st
    : list DocFile.t * State :=
  match fileList with
  | [] => ([], st)
  | (file, random_base36) :: rest =>
      let '(previewUrl, st1) :=
        if JS.startsWith (File.type file) "image/"
        then let '(url, st') := createObjectURL st in (Some url, st')
        else (None, st) in
      let entry :=
        DocFile.mk (generateId random_base36) file (File.name file)
          (File.size file) (getFileType (File.name file)) previewUrl 0 in
      let '(entries, st2) := newFilesOf rest st1 in
      (entry :: entries, st2)
  end.

Definition handleFilesSelected (fileList : option (list (File.t * string))) st
    : State :=
  match fileList with
  | None => st
  | Some fileList =>
      let '(newFiles, st') := newFilesOf fileList st in
      setFiles (files st' ++ newFiles) st'
  end.

Definition handleDragStart st : State := setIsDragging true st.

(** The updater passed to [setFiles] by a group drag (lines 96-122).
    [None]: the list is left with an [undefined] element. *)
Definition groupDrag sel (activeId overId : string) (items : list DocFile.t)
    : option (list DocFile.t) :=
  let selectedItems := filter (λ i, DocFile.id i ∈ sel) items in
  let unselectedItems := filter (λ i, DocFile.id i ∉ sel) items in
  if decide (overId ∉ sel) then
    let overIndexInUnselected :=
      JS.findIndex (λ i, DocFile.id i = overId) unselectedItems in
    let originalActiveIndex :=
      JS.findIndex (λ i, DocFile.id i = activeId) items in
    let originalOverIndex :=
      JS.findIndex (λ i, DocFile.id i = overId) items in
    let newFiles := unselectedItems in
    if originalActiveIndex <? originalOverIndex
    then Some (JS.splice newFiles (overIndexInUnselected + 1) 0 selectedItems).2
    else Some (JS.splice newFiles overIndexInUnselected 0 selectedItems).2
  else
    let oldIndex := JS.findIndex (λ i, DocFile.id i = activeId) items in
    let newIndex := JS.findIndex (λ i, DocFile.id i = overId) items in
    arrayMove items oldIndex newIndex.

(** The updater of a single item drag (lines 125-129). *)
Definition singleDrag (activeId overId : string) (items : list DocFile.t)
    : option (list DocFile.t) :=
  let oldIndex := JS.findIndex (λ i, DocFile.id i = activeId) items in
  let newIndex := JS.findIndex (λ i, DocFile.id i = overId) items in
  arrayMove items oldIndex newIndex.

(** A list holding [undefined] makes the next render throw on
    [files.map (f => f.id)]. *)
Definition commitFiles (fs : option (list DocFile.t)) st : result State :=
  match fs with
  | Some fs => Ok (setFiles fs st)
  | None => Throw TypeError_undefined_id
  end.

(** [handleDragEnd]: [active] is [event.active.id], [over] is
    [event.over], [None] when the drop hits no sortable item. *)
Definition handleDragEnd (active : string) (over : option string) st
    : result State :=
  let st := setIsDragging false st in
  match over with
  | None => Ok st
  | Some overId =>
      if decide (active = overId) then Ok st
      else
        let activeId := active in
        if decide (activeId ∈ selectedIds st ∧ (1 < size (selectedIds st))%nat)
        then commitFiles (groupDrag (selectedIds st) activeId overId (files st)) st
        else commitFiles (singleDrag activeId overId (files st)) st
  end.

Definition rotate90 f : DocFile.t :=
  let nextRotation := Z.rem (DocFile.rotation f + 90) 360 in
  DocFile.with_rotation nextRotation f.

Definition handleRotate (id : string) st : State :=
  setFiles
    ((λ f, if decide (DocFile.id f = id) then rotate90 f else f) <$> files st)
    st.

Definition handleBulkRotate st : State :=
  setFiles
    ((λ f, if decide (DocFile.id f ∈ selectedIds st) then rotate90 f else f)
       <$> files st)
    st.

Definition handleDelete (id : string) st : State :=
  let st1 := setFiles (filter (λ f, DocFile.id f ≠ id) (files st)) st in
  setSelectedIds (selectedIds st1 ∖ {[id]}) st1.

Definition handleBulkDelete st : State :=
  let st1 :=
    setFiles (filter (λ f, DocFile.id f ∉ selectedIds st) (files st)) st in
  setSelectedIds ∅ st1.

(** The "Borrar todo" button (line 455). *)
Definition clearAll st : State := setSelectedIds ∅ (setFiles [] st).

Inductive Direction : Type := up | down.

(** "Group Move Logic": the updater passed to [setFiles] (lines 171-208). *)
Definition moveGroup sel (direction : Direction) (prev : list DocFile.t)
    : result (list DocFile.t) :=
  let selectedItems := filter (λ f, DocFile.id f ∈ sel) prev in
  let unselectedItems := filter (λ f, DocFile.id f ∉ sel) prev in
  let indices :=
    filter (λ i, i ≠ -1)
      (imap (λ i f, if decide (DocFile.id f ∈ sel) then Z.of_nat i else -1)
         prev) in
  match direction with
  | up =>
      let firstSelectedIndex := JS.Math_min indices in
      if JS.strict_eq firstSelectedIndex 0 then Ok prev
      else
        match JS.index prev (JS.plus firstSelectedIndex (-1)) with
        | None => Throw TypeError_undefined_id
        | Some itemAbove =>
            let itemAboveId := DocFile.id itemAbove in
            let indexInUnselected :=
              JS.findIndex (λ f, DocFile.id f = itemAboveId) unselectedItems in
            let newFiles := unselectedItems in
            Ok (JS.splice newFiles indexInUnselected 0 selectedItems).2
        end
  | down =>
      let lastSelectedIndex := JS.Math_max indices in
      if JS.strict_eq lastSelectedIndex (Z.of_nat (length prev) - 1) then Ok prev
      else
        match JS.index prev (JS.plus lastSelectedIndex 1) with
        | None => Throw TypeError_undefined_id
        | Some itemBelow =>
            let itemBelowId := DocFile.id itemBelow in
            let indexInUnselected :=
              JS.findIndex (λ f, DocFile.id f = itemBelowId) unselectedItems in
            let newFiles := unselectedItems in
            Ok (JS.splice newFiles (indexInUnselected + 1) 0 selectedItems).2
        end
  end.

(** "Single Item Logic" (lines 212-218). *)
Definition moveSingle (id : string) (direction : Direction) st : result State :=
  let index := JS.findIndex (λ f, DocFile.id f = id) (files st) in
  if decide (index = -1) then Ok st
  else
    let newIndex :=
      match direction with up => index - 1 | down => index + 1 end in
    if decide (newIndex < 0 ∨ newIndex >= Z.of_nat (length (files st)))
    then Ok st
    else commitFiles (arrayMove (files st) index newIndex) st.

(** [handleMove]: [performMove], which runs the same whether or not the
    View Transitions API wraps it. *)
Definition handleMove (id : string) (direction : Direction) st : result State :=
  if decide (id ∈ selectedIds st ∧ (1 < size (selectedIds st))%nat)
  then
    newFiles ← moveGroup (selectedIds st) direction (files st);
    Ok (setFiles newFiles st)
  else moveSingle id direction st.

Definition toggleSelection (id : string) st : State :=
  let next := selectedIds st in
  let next := if decide (id ∈ next) then next ∖ {[id]} else {[id]} ∪ next in
  setSelectedIds next st.

Definition toggleSelectAll st : State :=
  if decide (size (selectedIds st) = length (files st))
  then setSelectedIds ∅ st
  else setSelectedIds (list_to_set (ids (files st))) st.

(** ** The merge pipeline ([handleMerge]) *)

Definition merge_alert : string :=
  "Ocurrió un error al procesar los archivos. Asegúrate de que los PDFs no estén encriptados y las imágenes sean válidas.".

Section Merge.

Variable lib : PDF.Lib.

(** [await] of a promise: a rejected one throws at the awaiting line. *)
Definition await {A} (what : string) (promise : option A) : result A :=
  match promise with
  | Some a => Ok a
  | None => Throw what
  end.

(** The test of line 274 that chooses [embedJpg] over [embedPng]. *)
Definition isJpeg (file : File.t) : bool :=
  (String.eqb (File.type file) "image/jpeg"
   || JS.endsWith (JS.toLowerCase (File.name file)) ".jpg"
   || JS.endsWith (JS.toLowerCase (File.name file)) ".jpeg")%bool.

(** The pages copied from a pdf entry: [copiedPages.forEach] (lines
    264-269) appends each page to [mergedPdf] after setting its
    rotation. *)
Definition addCopiedPages (docFile : DocFile.t)
    (copiedPages mergedPdf : list PDF.Page) : list PDF.Page :=
  foldl
    (λ mergedPdf page,
       let existingRotation := PDF.getRotation page in
       let page :=
         PDF.setRotation (existingRotation + DocFile.rotation docFile) page in
       mergedPdf ++ [page])
    mergedPdf copiedPages.

(** A call of the library that does not go through a promise: an
    exception thrown by it leaves the [try] block at the calling line. *)
Definition call {A} (what : string) (outcome : option A) : result A :=
  match outcome with
  | Some a => Ok a
  | None => Throw what
  end.

(** [page.drawText (text, {x, y, size, font, color})]: the text is
    encoded in the font, then drawn. *)
Definition drawText (text : string) (x y size : Q)
    (font : PDF.StandardFonts) (color : PDF.Color) (page : PDF.Page)
    : result PDF.Page :=
  _ ← call "drawText" (PDF.encodeText lib font text);
  Ok (PDF.draw (PDF.drawText text x y size font color) page).

(** The placeholder page of an office or text entry (lines 295-346), or
    the exception raised on the way: by the embedding of a font, by the
    measuring of one of the three texts, by the drawing of one of
    them. *)
Definition placeholderPage (docFile : DocFile.t) : result PDF.Page :=
  let page := PDF.blank 595 842 in
  let '(width, height) := PDF.getSize page in
  fontBold ← await "embedFont" (PDF.embedFont lib PDF.HelveticaBold);
  fontRegular ← await "embedFont" (PDF.embedFont lib PDF.Helvetica);
  let title := "Documento Pendiente de Procesar" in
  let fileName := DocFile.name docFile in
  let subtext :=
    "Para ver el contenido real, configure el servidor backend." in
  let titleSize := 20%Q in
  let nameSize := 14%Q in
  let subtextSize := 10%Q in
  titleWidth ←
    call "widthOfTextAtSize"
      (PDF.widthOfTextAtSize lib fontBold title titleSize);
  nameWidth ←
    call "widthOfTextAtSize"
      (PDF.widthOfTextAtSize lib fontRegular fileName nameSize);
  subtextWidth ←
    call "widthOfTextAtSize"
      (PDF.widthOfTextAtSize lib fontRegular subtext subtextSize);
  page ←
    drawText title ((width - titleWidth) / 2) (height / 2 + 30)
      titleSize fontBold (PDF.rgb 0.2 0.2 0.2) page;
  page ←
    drawText fileName ((width - nameWidth) / 2) (height / 2)
      nameSize fontRegular (PDF.rgb 0.14 0.39 0.92) page;
  page ←
    drawText subtext ((width - subtextWidth) / 2) (height / 2 - 25)
      subtextSize fontRegular (PDF.rgb 0.6 0.6 0.6) page;
  Ok (PDF.draw
        (PDF.drawRectangle 50 (height / 2 - 60) (width - 100) 140
           (PDF.rgb 0.8 0.8 0.8) 1) page).

(** The body of the [for] loop (lines 255-348): what one entry adds to
    [mergedPdf], or the exception it raises.  A page that [addPage] has
    put into [mergedPdf] before an exception goes with [mergedPdf]: the
    [catch] block saves nothing. *)
Definition mergeEntry (mergedPdf : list PDF.Page) (docFile : DocFile.t)
    : result (list PDF.Page) :=
  fileBytes ← await "arrayBuffer" (File.arrayBuffer (DocFile.file docFile));
  match DocFile.type docFile with
  | pdf =>
      copiedPages ← await "PDFDocument.load" (PDF.load lib fileBytes);
      Ok (addCopiedPages docFile copiedPages mergedPdf)
  | image =>
      image ←
        (if isJpeg (DocFile.file docFile)
         then await "embedJpg" (PDF.embedJpg lib fileBytes)
         else await "embedPng" (PDF.embedPng lib fileBytes));
      let page := PDF.blank (PDF.width image) (PDF.height image) in
      let page :=
        PDF.draw
          (PDF.drawImage image 0 0 (PDF.width image) (PDF.height image))
          page in
      let page := PDF.setRotation (DocFile.rotation docFile) page in
      Ok (mergedPdf ++ [page])
  | _ =>
      page ← placeholderPage docFile;
      Ok (mergedPdf ++ [page])
  end.

(** [for (const docFile of files)]. *)
Fixpoint mergeLoop (files : list DocFile.t) (mergedPdf : list PDF.Page)
    : result (list PDF.Page) :=
  match files with
  | [] => Ok mergedPdf
  | docFile :: rest =>
      mergedPdf ← mergeEntry mergedPdf docFile;
      mergeLoop rest mergedPdf
  end.

(** [handleMerge]: [try], [catch] and [finally] of lines 250-369. *)
Definition handleMerge st : State :=
  if decide (length (files st) = 0%nat) then st
  else
    let st := setIsProcessing true st in
    let st :=
      match mergeLoop (files st) [] with
      | Ok mergedPdf =>
          let pdfBytes := mergedPdf in
          let '(url, st) := createObjectURL st in
          let base :=
            if decide (fileName st = EmptyString) then "documento_fusionado"
            else fileName st in
          let st := download (base +:+ ".pdf") pdfBytes st in
          revokeObjectURL url st
      | Throw error =>
          alert merge_alert (console_error "Error al fusionar:" st)
      end in
    setIsProcessing false st.

End Merge.

(** ** The events of the interface and the states they reach *)

Inductive Event : Type :=
  | FilesSelected (fileList : option (list (File.t * string)))
  | DragStart
  | DragEnd (active : string) (over : option string)
  | Rotate (id : string)
  | BulkRotate
  | Delete (id : string)
  | BulkDelete
  | ClearAll
  | Move (id : string) (direction : Direction)
  | ToggleSelection (id : string)
  | ToggleSelectAll
  | FileNameChange (value : string)
  | Merge.

(** The handler each event runs.  Only [handleDragEnd] and [handleMove]
    contain an expression that can throw. *)
Definition dispatch (lib : PDF.Lib) (ev : Event) st : result State :=
  match ev with
  | FilesSelected fileList => Ok (handleFilesSelected fileList st)
  | DragStart => Ok (handleDragStart st)
  | DragEnd active over => handleDragEnd active over st
  | Rotate id => Ok (handleRotate id st)
  | BulkRotate => Ok (handleBulkRotate st)
  | Delete id => Ok (handleDelete id st)
  | BulkDelete => Ok (handleBulkDelete st)
  | ClearAll => Ok (clearAll st)
  | Move id direction => handleMove id direction st
  | ToggleSelection id => Ok (toggleSelection id st)
  | ToggleSelectAll => Ok (toggleSelectAll st)
  | FileNameChange value => Ok (setFileName value st)
  | Merge => Ok (handleMerge lib st)
  end.

(** The states of the application: those a sequence of events leads to
    from the initial one. *)
Inductive reachable (lib : PDF.Lib) : State → Prop :=
  | reachable_initial : reachable lib initialState
  | reachable_step st ev st' :
      reachable lib st → dispatch lib ev st = Ok st' → reachable lib st'.

(** The ids [handleFilesSelected] gives to a batch of files. *)
Definition generatedIds (fileList : list (File.t * string)) : list string :=
  (λ entry, generateId entry.2) <$> fileList.

(** The draws of a batch are fresh for a list: the ids cut from them are
    pairwise distinct and none is the id of an entry of the list. *)
Definition fresh_draws (fileList : list (File.t * string))
    (fs : list DocFile.t) : Prop :=
  NoDup (generatedIds fileList)
  ∧ ∀ i, i ∈ generatedIds fileList → i ∉ ids fs.

Definition fresh_event (ev : Event) st : Prop :=
  match ev with
  | FilesSelected (Some fileList) => fresh_draws fileList (files st)
  | _ => True
  end.

(** The states reached when every batch is ingested with fresh draws. *)
Inductive reachable_fresh (lib : PDF.Lib) : State → Prop :=
  | reachable_fresh_initial : reachable_fresh lib initialState
  | reachable_fresh_step st ev st' :
      reachable_fresh lib st → fresh_event ev st →
      dispatch lib ev st = Ok st' → reachable_fresh lib st'.

(** ** Sample entries *)

Definition sampleFile (name mime : string) : File.t :=
  File.mk name 1024 mime (Some []).

Definition sampleEntry (id name mime : string) (previewUrl : option ObjectURL)
    : DocFile.t :=
  DocFile.mk id (sampleFile name mime) name 1024 (getFileType name)
    previewUrl 0.

Definition entryA : DocFile.t := sampleEntry "A" "a.pdf" "application/pdf" None.
Definition entryB : DocFile.t := sampleEntry "B" "b.png" "image/png" (Some 0%nat).
Definition entryC : DocFile.t := sampleEntry "C" "c.pdf" "application/pdf" None.
Definition entryD : DocFile.t := sampleEntry "D" "d.txt" "text/plain" None.

(** A state with a given list and selection, in which one object URL,
    number 0, has been handed out (the preview of [entryB]). *)
Definition withList (fs : list DocFile.t) (sel : gset string) : State :=
  mkState fs sel EmptyString false false {[0%nat]} 1%nat [] [] [] [].

(** ** Vocabulary of the properties *)

(** The indices of the selected entries (line 176), counted from [off]:
    [moveGroup] computes them from 0. *)
Definition tagFrom (sel : gset string) (off i : nat) (f : DocFile.t) : Z :=
  if decide (DocFile.id f ∈ sel) then Z.of_nat (off + i) else -1.

Definition indicesFrom (sel : gset string) (off : nat) (prev : list DocFile.t)
    : list Z :=
  filter (λ i, i ≠ -1) (imap (tagFrom sel off) prev).

(** A plain index swap between places [i] and [j]: the two entries
    exchange places and every other entry stays at its own index. *)
Definition swapped {A} (before after : list A) (i j : nat) : Prop :=
  length after = length before
  ∧ after !! i = before !! j
  ∧ after !! j = before !! i
  ∧ ∀ k, k ≠ i → k ≠ j → after !! k = before !! k.

Definition listABC : State := withList [entryA; entryB; entryC] {["A"; "C"]}.

(** The invariant of the selection set in the data model: a selected id
    is the id of an entry of the list. *)
Definition selection_live st : Prop :=
  ∀ i, i ∈ selectedIds st → i ∈ ids (files st).


(** Two entries that drew the same id, followed by a selection of two. *)
Definition entryP : DocFile.t := sampleEntry "u" "p.pdf" "application/pdf" None.
Definition entryQ : DocFile.t := sampleEntry "u" "q.pdf" "application/pdf" None.

Definition listPQAC : State :=
  withList [entryP; entryQ; entryA; entryC] {["A"; "C"]}.

(** Scenario 1 of the spec: the list [B, A, C] with [{A, C}] selected. *)
Definition listBAC : State := withList [entryB; entryA; entryC] {["A"; "C"]}.

Definition listABCD : State :=
  withList [entryA; entryB; entryC; entryD] {["A"; "C"]}.

(** A preview resource is released once between two states: one call of
    [URL.revokeObjectURL] for it is recorded, and it is live no more. *)
Definition releasedOnce (url : ObjectURL) (st st' : State) : Prop :=
  revokedURLs st' = revokedURLs st ++ [url] ∧ url ∉ objectURLs st'.

(** The image entry [B] alone, with its preview URL live. *)
Definition listB : State := withList [entryB] ∅.

(** A per-entry step of the pipeline fails: the body of the loop throws
    for this entry. *)
Definition entryFails (lib : PDF.Lib) (f : DocFile.t) : Prop :=
  ∃ e, mergeEntry lib [] f = Throw e.

(** What [copiedPages.forEach] makes of one page of the source. *)
Definition rotatedCopy (docFile : DocFile.t) (page : PDF.Page) : PDF.Page :=
  PDF.setRotation (PDF.getRotation page + DocFile.rotation docFile) page.

(** A library for the examples: bytes that start with [k] load as a
    one-page A4 document whose page is rotated by [k] quarter turns, and
    no bytes at all fail to load; every image embeds as 10 by 10; the
    two fonts measure and encode the texts made of ASCII characters,
    each character half the font size wide, and throw on any other. *)
Definition samplePage (rotation : Z) : PDF.Page :=
  PDF.mkPage (595, 842)%Q rotation [].

Definition asciiOnly (text : string) : bool :=
  forallb (λ c, (Ascii.nat_of_ascii c <? 128)%nat)
    (String.list_ascii_of_string text).

Definition sampleLib : PDF.Lib :=
  PDF.mkLib
    (λ bytes,
       match bytes with
       | [] => None
       | k :: _ => Some [samplePage (90 * Z.of_N (Byte.to_N k))]
       end)
    (λ _, Some (PDF.mkImage 10 10))
    (λ _, Some (PDF.mkImage 10 10))
    (λ font, Some font)
    (λ _ text size,
       if asciiOnly text
       then Some (inject_Z (Z.of_nat (String.length text)) * size / 2)%Q
       else None)
    (λ _ text, if asciiOnly text then Some text else None).

(** A pdf entry over given bytes, with a given rotation chosen by the
    user. *)
Definition pdfEntry (id : string) (bytes : list Byte.byte) (rotation : Z)
    : DocFile.t :=
  DocFile.mk id (File.mk (id +:+ ".pdf") 1024 "application/pdf" (Some bytes))
    (id +:+ ".pdf") 1024 pdf None rotation.

(** Scenario 2 of the spec: a page rotated by 90, an entry rotated by 180. *)
Definition scenario2 : DocFile.t := pdfEntry "s2" [Byte.x01] 180.

(** A page rotated by 270, an entry rotated by 180. *)
Definition overTurn : DocFile.t := pdfEntry "ot" [Byte.x03] 180.

(** An entry whose bytes do not load. *)
Definition corrupt : DocFile.t := pdfEntry "bad" [] 0.

(** Two uploads whose draws differ, yet agree in the first nine digits
    after the point: [generateId] cuts the same id from both.  The draws
    are the renderings of the neighbouring doubles 0.123456 and
    0.12345600000000001. *)
Definition firstUpload : list (File.t * string) :=
  [(sampleFile "a.pdf" "application/pdf", "0.4fzyo82mvyq")].
Definition secondUpload : list (File.t * string) :=
  [(sampleFile "b.png" "image/png", "0.4fzyo82mvyt")].

Definition afterFirstUpload : State :=
  handleFilesSelected (Some firstUpload) initialState.
Definition afterSecondUpload : State :=
  handleFilesSelected (Some secondUpload) afterFirstUpload.

(** ** Vocabulary of the further properties *)

(** The test that sends [handleMove] and [handleDragEnd] to their group
    branch (lines 86 and 170). *)
Definition multiSelected (id : string) st : Prop :=
  id ∈ selectedIds st ∧ (1 < size (selectedIds st))%nat.

(** The rotations of the type [0 | 90 | 180 | 270] of [DocFile]. *)
Definition legalRotation (r : Z) : Prop := r ∈ [0; 90; 180; 270].

(** An event as the interface raises it: the checkbox that calls
    [toggleSelection] belongs to an entry of the list. *)
Definition live_event (ev : Event) st : Prop :=
  match ev with
  | ToggleSelection id => id ∈ ids (files st)
  | _ => True
  end.

Inductive reachable_live (lib : PDF.Lib) : State → Prop :=
  | reachable_live_initial : reachable_live lib initialState
  | reachable_live_step st ev st' :
      reachable_live lib st → live_event ev st →
      dispatch lib ev st = Ok st' → reachable_live lib st'.

(** An animated image: the browser reports an image MIME type, and the
    suffix is none of those [getFileType] knows. *)
Definition gifUpload : list (File.t * string) :=
  [(sampleFile "anim.gif" "image/gif", "0.4fzyo82mvyq")].

(** An office entry. *)
Definition entryE : DocFile.t :=
  sampleEntry "E" "e.docx"
    "application/vnd.openxmlformats-officedocument.wordprocessingml.document"
    None.

(** A text entry whose name has a character that Helvetica lacks. *)
Definition entryF : DocFile.t := sampleEntry "F" "文.txt" "text/plain" None.

(** An image entry whose bytes [sampleLib] embeds, rotated by 90. *)
Definition imageEntry : DocFile.t :=
  DocFile.mk "img" (File.mk "photo.JPG" 2048 "image/jpeg" (Some [Byte.x02]))
    "photo.JPG" 2048 image (Some 0%nat) 90.

Ltac by_computation := apply (bool_decide_unpack _); vm_compute; exact I.


(** * Properties *)

#[global] Instance Ok_inj {A} : Inj (=) (=) (@Ok A).
Proof. by intros a b [=]. Qed.

(** ** Facts about the JavaScript primitives *)

Arguments JS.splice : simpl never.
Arguments JS.findIndex : simpl never.
Arguments arrayMove : simpl never.
Arguments placeholderPage : simpl never.

Section list_facts.
Context {A : Type}.
Implicit Types (l pre post items : list A) (x : A).

Lemma filter_keep_all (P : A → Prop) `{!∀ x, Decision (P x)} l :
  Forall P l → filter P l = l.
Proof.
  induction 1 as [|x l HP _ IH]; [done|].
  rewrite filter_cons, decide_True by done. by rewrite IH.
Qed.

Lemma filter_drop_all (P : A → Prop) `{!∀ x, Decision (P x)} l :
  Forall (λ x, ¬ P x) l → filter P l = [].
Proof.
  induction 1 as [|x l HP _ IH]; [done|].
  by rewrite filter_cons, decide_False.
Qed.

(** Inserting with [splice (k, 0, ...items)] at a non-negative [k]. *)
Lemma splice_insert l (k : Z) items :
  0 ≤ k →
  (JS.splice l k 0 items).2
  = take (Z.to_nat k) l ++ items ++ drop (Z.to_nat k) l.
Proof.
  intros Hk. unfold JS.splice. cbn [snd].
  destruct (Z.ltb_spec k 0) as [?|_]; [lia|].
  replace (Z.to_nat (Z.min (Z.max 0 0) _)) with 0%nat by lia.
  rewrite Nat.add_0_r.
  destruct (Z.le_gt_cases k (Z.of_nat (length l))) as [Hle|Hgt].
  - by rewrite Z.min_l by done.
  - rewrite Z.min_r, Nat2Z.id by lia.
    rewrite firstn_all, !drop_ge, take_ge by lia. done.
Qed.

Lemma splice_insert_at pre post items :
  (JS.splice (pre ++ post) (Z.of_nat (length pre)) 0 items).2
  = pre ++ items ++ post.
Proof.
  rewrite splice_insert by lia. rewrite Nat2Z.id.
  by rewrite take_app_length, drop_app_length.
Qed.

(** Whatever the index, an insertion only adds the items. *)
Lemma splice_insert_Permutation l (k : Z) items :
  (JS.splice l k 0 items).2 ≡ₚ items ++ l.
Proof.
  unfold JS.splice. cbn [snd].
  set (s := Z.to_nat _).
  replace (Z.to_nat (Z.min (Z.max 0 0) _)) with 0%nat by lia.
  rewrite Nat.add_0_r.
  rewrite <- (take_drop s l) at 3.
  by rewrite Permutation_app_swap_app.
Qed.

Lemma findIndex_Some (P : A → Prop) `{!∀ x, Decision (P x)} l i x :
  list_find P l = Some (i, x) → JS.findIndex P l = Z.of_nat i.
Proof. unfold JS.findIndex. by intros ->. Qed.

Lemma findIndex_None (P : A → Prop) `{!∀ x, Decision (P x)} l :
  Forall (λ x, ¬ P x) l → JS.findIndex P l = -1.
Proof.
  intros Hnone. apply (list_find_None P) in Hnone.
  unfold JS.findIndex. by rewrite Hnone.
Qed.

Lemma findIndex_middle (P : A → Prop) `{!∀ x, Decision (P x)} pre x post :
  Forall (λ y, ¬ P y) pre → P x →
  JS.findIndex P (pre ++ x :: post) = Z.of_nat (length pre).
Proof.
  intros Hpre Hx. apply (findIndex_Some _ _ _ x).
  apply list_find_Some. split_and!.
  - by rewrite list_lookup_middle.
  - done.
  - intros j y Hj Hlt. rewrite lookup_app_l in Hj by done.
    rewrite Forall_lookup in Hpre. eauto.
Qed.

Lemma findIndex_range (P : A → Prop) `{!∀ x, Decision (P x)} l :
  -1 ≤ JS.findIndex P l < Z.of_nat (length l).
Proof.
  unfold JS.findIndex. destruct (list_find P l) as [[i x]|] eqn:E; [|lia].
  apply list_find_Some in E as (Hi%lookup_lt_Some & _). lia.
Qed.

(** The decomposition behind a successful [list_find]. *)
Lemma list_find_split (P : A → Prop) `{!∀ x, Decision (P x)} l i x :
  list_find P l = Some (i, x) →
  l = take i l ++ x :: drop (S i) l ∧ Forall (λ y, ¬ P y) (take i l) ∧ P x.
Proof.
  intros (Hi & HP & Hlt)%list_find_Some. split_and!; [|..|done].
  - by rewrite take_drop_middle.
  - apply Forall_lookup. intros j y Hj.
    apply lookup_take_Some in Hj as [Hj ?]. eauto.
Qed.

End list_facts.

(** ** The indices of the selected entries (line 176) *)

Section indices.
Variable sel : gset string.

Let selected (f : DocFile.t) : Prop := DocFile.id f ∈ sel.

Lemma indicesFrom_cons off f prev :
  indicesFrom sel off (f :: prev)
  = (if decide (DocFile.id f ∈ sel) then [Z.of_nat off] else [])
    ++ indicesFrom sel (S off) prev.
Proof.
  unfold indicesFrom. rewrite imap_cons.
  assert (imap (tagFrom sel off ∘ S) prev = imap (tagFrom sel (S off)) prev) as ->.
  { apply imap_ext. intros i x _. unfold tagFrom; simpl.
    by rewrite Nat.add_succ_r. }
  assert (tagFrom sel off 0 f
          = if decide (DocFile.id f ∈ sel) then Z.of_nat off else -1) as ->.
  { unfold tagFrom. by rewrite Nat.add_0_r. }
  rewrite filter_cons.
  destruct (decide (DocFile.id f ∈ sel)).
  - rewrite decide_True by lia. done.
  - by rewrite decide_False by naive_solver.
Qed.

Lemma indicesFrom_lower off prev :
  Forall (λ z, Z.of_nat off ≤ z) (indicesFrom sel off prev).
Proof.
  revert off. induction prev as [|f prev IH]; intros off; [constructor|].
  rewrite indicesFrom_cons. apply Forall_app. split.
  - case_decide; repeat constructor. lia.
  - eapply Forall_impl; [apply IH|]. intros z ?; simpl in *. lia.
Qed.

Lemma indicesFrom_unselected off prev :
  Forall (λ f, ¬ selected f) prev → indicesFrom sel off prev = [].
Proof.
  intros H. revert off. induction H as [|f prev Hf _ IH]; intros off.
  - done.
  - rewrite indicesFrom_cons, decide_False by done. apply IH.
Qed.

Lemma indicesFrom_app off pre post :
  indicesFrom sel off (pre ++ post)
  = indicesFrom sel off pre ++ indicesFrom sel (off + length pre) post.
Proof.
  revert off. induction pre as [|f pre IH]; intros off; simpl.
  - by rewrite Nat.add_0_r.
  - rewrite !indicesFrom_cons, IH, <- app_assoc.
    by rewrite Nat.add_succ_r.
Qed.

Lemma Math_min_lower (n : Z) xs :
  Forall (λ z, n ≤ z) xs → JS.Math_min (n :: xs) = JS.Int n.
Proof.
  intros H.
  change (JS.Math_min (n :: xs))
    with (JS.min2 (JS.Int n) (JS.Math_min xs)).
  assert (JS.Math_min xs = JS.Infinity
          ∨ ∃ m, JS.Math_min xs = JS.Int m ∧ n ≤ m) as [->|(m & -> & ?)].
  { induction H as [|x xs Hx _ IH]; [by left|]. right.
    change (JS.Math_min (x :: xs))
      with (JS.min2 (JS.Int x) (JS.Math_min xs)).
    destruct IH as [->|(m & -> & ?)]; simpl; eauto.
    exists (Z.min x m). split; [done|lia]. }
  - done.
  - simpl. f_equal. lia.
Qed.

Lemma Math_max_upper (n : Z) xs :
  Forall (λ z, z ≤ n) xs → JS.Math_max (xs ++ [n]) = JS.Int n.
Proof.
  induction 1 as [|x xs Hx _ IH]; [done|].
  change (JS.Math_max ((x :: xs) ++ [n]))
    with (JS.max2 (JS.Int x) (JS.Math_max (xs ++ [n]))).
  rewrite IH. cbn. f_equal. lia.
Qed.

(** [Math.min (...indices)] is the index of the first selected entry. *)
Lemma Math_min_indices prev k top :
  list_find selected prev = Some (k, top) →
  JS.Math_min (indicesFrom sel 0 prev) = JS.Int (Z.of_nat k).
Proof.
  intros Hfind.
  pose proof Hfind as (Hk%lookup_lt_Some & _)%list_find_Some.
  apply list_find_split in Hfind as (Hsplit & Hpre & Htop).
  assert (length (take k prev) = k) as Hlen by (rewrite length_take; lia).
  rewrite Hsplit, indicesFrom_app, indicesFrom_unselected by done.
  rewrite Hlen. simpl. rewrite indicesFrom_cons, decide_True by done.
  apply Math_min_lower.
  eapply Forall_impl; [apply indicesFrom_lower|]. intros z ?; simpl in *; lia.
Qed.

(** With no selected entry in the list there is no index at all. *)
Lemma indices_none prev :
  list_find selected prev = None → indicesFrom sel 0 prev = [].
Proof. intros H%list_find_None. by apply indicesFrom_unselected. Qed.

End indices.

(** ** Group move *)

Section moveGroup_facts.
Variable sel : gset string.

Abbreviation selected := (λ f : DocFile.t, DocFile.id f ∈ sel).
Abbreviation unselected := (λ f : DocFile.t, DocFile.id f ∉ sel).

Lemma moveGroup_unfold direction prev :
  moveGroup sel direction prev
  = let selectedItems := filter selected prev in
    let unselectedItems := filter unselected prev in
    let indices := indicesFrom sel 0 prev in
    match direction with
    | up =>
        let firstSelectedIndex := JS.Math_min indices in
        if JS.strict_eq firstSelectedIndex 0 then Ok prev
        else
          match JS.index prev (JS.plus firstSelectedIndex (-1)) with
          | None => Throw TypeError_undefined_id
          | Some itemAbove =>
              Ok (JS.splice unselectedItems
                    (JS.findIndex
                       (λ f, DocFile.id f = DocFile.id itemAbove)
                       unselectedItems)
                    0 selectedItems).2
          end
    | down =>
        let lastSelectedIndex := JS.Math_max indices in
        if JS.strict_eq lastSelectedIndex (Z.of_nat (length prev) - 1)
        then Ok prev
        else
          match JS.index prev (JS.plus lastSelectedIndex 1) with
          | None => Throw TypeError_undefined_id
          | Some itemBelow =>
              Ok (JS.splice unselectedItems
                    (JS.findIndex
                       (λ f, DocFile.id f = DocFile.id itemBelow)
                       unselectedItems + 1)
                    0 selectedItems).2
          end
    end.
Proof. reflexivity. Qed.

(** Whatever the direction, a group move permutes the list. *)
Lemma moveGroup_Permutation direction prev out :
  moveGroup sel direction prev = Ok out → out ≡ₚ prev.
Proof.
  rewrite moveGroup_unfold. cbv zeta.
  destruct direction.
  - destruct (JS.strict_eq _ 0); [by intros [= ->]|].
    destruct (JS.index _ _); [|done]. intros <-%(inj Ok).
    rewrite splice_insert_Permutation. apply filter_app_complement.
  - destruct (JS.strict_eq _ _); [by intros [= ->]|].
    destruct (JS.index _ _); [|done]. intros <-%(inj Ok).
    rewrite splice_insert_Permutation. apply filter_app_complement.
Qed.

(** The group is already at the top. *)
Lemma moveGroup_up_top top rest :
  selected top → moveGroup sel up (top :: rest) = Ok (top :: rest).
Proof.
  intros Htop. rewrite moveGroup_unfold. cbv zeta.
  rewrite indicesFrom_cons, decide_True by done. cbn [app].
  rewrite Math_min_lower; [done|].
  eapply Forall_impl; [apply indicesFrom_lower|]. intros z ?; simpl in *; lia.
Qed.

(** The group moves above the entry that precedes its topmost member. *)
Lemma moveGroup_up_above pre above top rest :
  Forall unselected pre → unselected above → selected top →
  Forall (λ f, DocFile.id f ≠ DocFile.id above) pre →
  moveGroup sel up (pre ++ above :: top :: rest)
  = Ok (pre ++ filter selected (pre ++ above :: top :: rest)
          ++ above :: filter unselected rest).
Proof.
  intros Hpre Habove Htop Hfresh.
  assert (Forall unselected (pre ++ [above])) as Hpre'.
  { apply Forall_app. split; [done|]. by repeat constructor. }
  assert (filter unselected (pre ++ above :: top :: rest)
          = pre ++ above :: filter unselected rest) as Hunsel.
  { rewrite filter_app, filter_keep_all by done.
    rewrite filter_cons, decide_True by done.
    rewrite filter_cons, decide_False by (by intros Hn; apply Hn). done. }
  rewrite moveGroup_unfold. cbv zeta. rewrite Hunsel.
  replace (indicesFrom sel 0 (pre ++ above :: top :: rest))
    with (Z.of_nat (length (pre ++ [above]))
            :: indicesFrom sel (S (length (pre ++ [above]))) rest).
  2:{ assert (pre ++ above :: top :: rest = (pre ++ [above]) ++ top :: rest)
        as -> by (by rewrite <- app_assoc).
      rewrite indicesFrom_app.
      rewrite (indicesFrom_unselected sel 0 (pre ++ [above])) by done.
      rewrite indicesFrom_cons, decide_True by done. done. }
  rewrite Math_min_lower.
  2:{ eapply Forall_impl; [apply indicesFrom_lower|].
      intros z ?; simpl in *; lia. }
  rewrite length_app. cbn [length JS.strict_eq].
  rewrite bool_decide_false by lia. cbn [JS.plus JS.index].
  destruct (Z.ltb_spec (Z.of_nat (length pre + 1) + -1) 0) as [?|_]; [lia|].
  replace (Z.to_nat (Z.of_nat (length pre + 1) + -1)) with (length pre) by lia.
  rewrite list_lookup_middle by done.
  rewrite findIndex_middle by done.
  by rewrite splice_insert_at.
Qed.

(** In general the group moves above the first unselected entry that has
    the id of the entry preceding its topmost member. *)
Lemma moveGroup_up_anchor pre above top rest j anchor :
  Forall unselected pre → unselected above → selected top →
  list_find (λ f, DocFile.id f = DocFile.id above)
    (pre ++ above :: filter unselected rest) = Some (j, anchor) →
  moveGroup sel up (pre ++ above :: top :: rest)
  = Ok (take j (pre ++ above :: filter unselected rest)
          ++ filter selected (pre ++ above :: top :: rest)
          ++ anchor :: drop (S j) (pre ++ above :: filter unselected rest)).
Proof.
  intros Hpre Habove Htop Hfind.
  assert (Forall unselected (pre ++ [above])) as Hpre'.
  { apply Forall_app. split; [done|]. by repeat constructor. }
  assert (filter unselected (pre ++ above :: top :: rest)
          = pre ++ above :: filter unselected rest) as Hunsel.
  { rewrite filter_app, filter_keep_all by done.
    rewrite filter_cons, decide_True by done.
    rewrite filter_cons, decide_False by (by intros Hn; apply Hn). done. }
  rewrite moveGroup_unfold. cbv zeta. rewrite Hunsel.
  replace (indicesFrom sel 0 (pre ++ above :: top :: rest))
    with (Z.of_nat (length (pre ++ [above]))
            :: indicesFrom sel (S (length (pre ++ [above]))) rest).
  2:{ assert (pre ++ above :: top :: rest = (pre ++ [above]) ++ top :: rest)
        as -> by (by rewrite <- app_assoc).
      rewrite indicesFrom_app.
      rewrite (indicesFrom_unselected sel 0 (pre ++ [above])) by done.
      rewrite indicesFrom_cons, decide_True by done. done. }
  rewrite Math_min_lower.
  2:{ eapply Forall_impl; [apply indicesFrom_lower|].
      intros z ?; simpl in *; lia. }
  rewrite length_app. cbn [length JS.strict_eq].
  rewrite bool_decide_false by lia. cbn [JS.plus JS.index].
  destruct (Z.ltb_spec (Z.of_nat (length pre + 1) + -1) 0) as [?|_]; [lia|].
  replace (Z.to_nat (Z.of_nat (length pre + 1) + -1)) with (length pre) by lia.
  rewrite list_lookup_middle by done.
  rewrite (findIndex_Some _ _ _ _ Hfind).
  rewrite splice_insert by lia. rewrite Nat2Z.id.
  apply list_find_Some in Hfind as (Hj & _).
  by rewrite (drop_S _ _ _ Hj).
Qed.

End moveGroup_facts.

Lemma setFiles_same st : setFiles (files st) st = st.
Proof. by destruct st. Qed.

Lemma setSelectedIds_same st : setSelectedIds (selectedIds st) st = st.
Proof. by destruct st. Qed.

Lemma NoDup_ids_fresh pre f post :
  NoDup (ids (pre ++ f :: post)) →
  Forall (λ g, DocFile.id g ≠ DocFile.id f) pre.
Proof.
  unfold ids. rewrite fmap_app, fmap_cons. intros (_ & Hdisj & _)%NoDup_app.
  apply Forall_forall. intros g Hg Heq.
  apply (Hdisj (DocFile.id g)).
  - apply list_elem_of_fmap. eauto.
  - rewrite Heq. left.
Qed.

(** C1, as stated, fails on a list in which two entries have the same
    id, which [generateId] does not exclude: with the list [P, Q, A, C],
    where [P] and [Q] both have the id ["u"], and [{A, C}] selected, the
    block [A, C] goes before [P], the first entry with the id of [Q], and
    not immediately before [Q], the entry that preceded [A]. *)
Lemma moveGroup_up_duplicate_id :
  (1 < size (selectedIds listPQAC))%nat
  ∧ selection_live listPQAC
  ∧ list_find (λ f, DocFile.id f ∈ selectedIds listPQAC) (files listPQAC)
    = Some (2%nat, entryA)
  ∧ files listPQAC !! 1%nat = Some entryQ
  ∧ handleMove "A" up listPQAC
    = Ok (setFiles [entryA; entryC; entryP; entryQ] listPQAC)
  ∧ [entryA; entryC; entryP; entryQ] !! 2%nat ≠ Some entryQ.
Proof.
  split_and!; [by_computation| |reflexivity|reflexivity|reflexivity|done].
  intros i [->%elem_of_singleton | ->%elem_of_singleton]%elem_of_union;
    by_computation.
Qed.

(** C1, amended.  Moving a multi-selection up.  Let the selection have
    more than one id, all of them ids of entries of the list.  Then the
    list has a first selected entry [top], and the move returns a list,
    which [handleMove] commits for any selected id.  If [top] is at
    index 0 the move changes nothing.  Otherwise the list reads
    [before ++ above :: top :: rest], and the move yields
    [u1 ++ selected ++ anchor :: u2], where [u1 ++ anchor :: u2] are the
    unselected entries in their original order and [anchor] is the first
    of them that has the id of [above]: the selected entries form one
    block in their original order, the unselected entries keep theirs,
    and the block sits immediately before [anchor].  When the ids of the
    list are pairwise distinct, [anchor] is [above], the entry that
    preceded the topmost selected one, and the result is
    [before ++ selected ++ above :: unselected-of-rest]. *)
Theorem moveGroup_up_block st :
  (1 < size (selectedIds st))%nat →
  (∀ i, i ∈ selectedIds st → i ∈ ids (files st)) →
  let prev := files st in
  let selectedItems := filter (λ f, DocFile.id f ∈ selectedIds st) prev in
  let unselectedItems := filter (λ f, DocFile.id f ∉ selectedIds st) prev in
  ∃ (firstSelectedIndex : nat) (top : DocFile.t) (newFiles : list DocFile.t),
    list_find (λ f, DocFile.id f ∈ selectedIds st) prev
      = Some (firstSelectedIndex, top)
    ∧ moveGroup (selectedIds st) up prev = Ok newFiles
    ∧ (∀ id, id ∈ selectedIds st →
         handleMove id up st = Ok (setFiles newFiles st))
    ∧ match firstSelectedIndex with
      | O => newFiles = prev ∧ setFiles newFiles st = st
      | S k =>
          ∃ before above rest u1 anchor u2,
            prev = before ++ above :: top :: rest
            ∧ length before = k
            ∧ unselectedItems
              = before ++ above
                  :: filter (λ f, DocFile.id f ∉ selectedIds st) rest
            ∧ unselectedItems = u1 ++ anchor :: u2
            ∧ DocFile.id anchor = DocFile.id above
            ∧ Forall (λ f, DocFile.id f ≠ DocFile.id above) u1
            ∧ newFiles = u1 ++ selectedItems ++ anchor :: u2
            ∧ (NoDup (ids prev) →
               anchor = above
               ∧ newFiles
                 = before ++ selectedItems ++ above
                     :: filter (λ f, DocFile.id f ∉ selectedIds st) rest)
      end.
Proof.
  intros Hsize Hlive prev selectedItems unselectedItems.
  assert (is_Some (list_find (λ f, DocFile.id f ∈ selectedIds st) prev))
    as [[k top] Hfind].
  { destruct (size_pos_elem_of (selectedIds st)) as [i Hi]; [lia|].
    destruct (proj1 (list_elem_of_fmap _ _ _) (Hlive i Hi)) as (f & -> & Hf).
    by eapply list_find_elem_of. }
  assert (∀ newFiles,
            moveGroup (selectedIds st) up prev = Ok newFiles →
            ∀ id, id ∈ selectedIds st →
              handleMove id up st = Ok (setFiles newFiles st)) as Hcommit.
  { intros newFiles Hmove id Hid. unfold handleMove.
    rewrite decide_True by done. fold prev. by rewrite Hmove. }
  pose proof Hfind as (Hk%lookup_lt_Some & _)%list_find_Some.
  pose proof Hfind as (Hsplit & Hpre & Htop)%list_find_split.
  destruct k as [|k].
  - rewrite take_0 in Hsplit. simpl in Hsplit.
    assert (moveGroup (selectedIds st) up prev = Ok prev) as Hmove.
    { rewrite Hsplit. by apply moveGroup_up_top. }
    exists 0%nat, top, prev. split_and!; [done|done|by apply Hcommit|done|].
    unfold prev. apply setFiles_same.
  - destruct (lookup_lt_is_Some_2 prev k) as [above Habove]; [lia|].
    rewrite (take_S_r _ _ _ Habove) in Hsplit, Hpre.
    rewrite <- app_assoc in Hsplit. simpl in Hsplit.
    apply Forall_app in Hpre as [Hbefore Habove'].
    rewrite Forall_singleton in Habove'.
    set (before := take k prev) in *.
    set (rest := drop (S (S k)) prev) in *.
    assert (length before = k) as Hlen by (unfold before; rewrite length_take; lia).
    assert (unselectedItems
            = before ++ above
                :: filter (λ f, DocFile.id f ∉ selectedIds st) rest) as Hunsel.
    { unfold unselectedItems. rewrite Hsplit at 1.
      rewrite filter_app, filter_keep_all by done.
      rewrite filter_cons, decide_True by done.
      by rewrite filter_cons, decide_False by (by intros Hn; apply Hn). }
    assert (is_Some (list_find (λ f, DocFile.id f = DocFile.id above)
                       unselectedItems)) as [[j anchor] Hanchor].
    { apply (list_find_elem_of _ _ above); [|done].
      rewrite Hunsel. apply elem_of_app. right. left. }
    pose proof Hanchor as (Hu & Hu1 & Hid)%list_find_split.
    assert (moveGroup (selectedIds st) up prev
            = Ok (take j unselectedItems ++ selectedItems
                    ++ anchor :: drop (S j) unselectedItems)) as Hmove.
    { unfold selectedItems. rewrite Hunsel. rewrite Hsplit at 1 2.
      apply moveGroup_up_anchor; [done..|]. by rewrite <- Hunsel. }
    eexists (S k), top, _. split_and!; [done|exact Hmove|by apply Hcommit|].
    exists before, above, rest, (take j unselectedItems), anchor,
      (drop (S j) unselectedItems).
    split_and!; [done..|].
    intros Hnodup.
    assert (Forall (λ g, DocFile.id g ≠ DocFile.id above) before) as Hfresh.
    { apply (NoDup_ids_fresh _ _ (top :: rest)). by rewrite <- Hsplit. }
    assert (list_find (λ f, DocFile.id f = DocFile.id above) unselectedItems
            = Some (length before, above)) as Hfind'.
    { rewrite Hunsel. apply list_find_Some. split_and!.
      - by rewrite list_lookup_middle.
      - done.
      - intros i y Hi Hlt. rewrite lookup_app_l in Hi by done.
        rewrite Forall_lookup in Hfresh. eauto. }
    rewrite Hfind' in Hanchor. injection Hanchor as <- <-.
    split; [done|]. rewrite Hunsel.
    rewrite take_app_length, drop_app_ge by lia.
    by replace (S (length before) - length before)%nat with 1%nat by lia.
Qed.

Lemma moveGroup_up_block_BAC :
  (1 < size (selectedIds listBAC))%nat
  ∧ (∀ i, i ∈ selectedIds listBAC → i ∈ ids (files listBAC))
  ∧ NoDup (ids (files listBAC))
  ∧ handleMove "A" up listBAC
    = Ok (setFiles [entryA; entryC; entryB] listBAC)
  ∧ handleMove "C" up listBAC
    = Ok (setFiles [entryA; entryC; entryB] listBAC).
Proof.
  assert ((1 < size (selectedIds listBAC))%nat) as H1 by by_computation.
  assert (∀ i, i ∈ selectedIds listBAC → i ∈ ids (files listBAC)) as H2.
  { intros i [->%elem_of_singleton | ->%elem_of_singleton]%elem_of_union;
      by_computation. }
  assert (NoDup (ids (files listBAC))) as H3 by by_computation.
  split_and!; [exact H1|exact H2|exact H3|..].
  all: destruct (moveGroup_up_block listBAC H1 H2)
    as (k & top & newFiles & Hfind & _ & Hcommit & Hres).
  all: vm_compute in Hfind; injection Hfind as <- <-.
  all: destruct Hres
    as (before & above & rest & u1 & anchor & u2 & Hprev & Hlen & _ & _ & _
        & _ & _ & Hdistinct).
  all: destruct (Hdistinct H3) as [_ ->].
  all: destruct before; [|done]; injection Hprev as <- <-.
  all: apply Hcommit; by_computation.
Defined.

(** ** Group drag *)

(** Searching for [P] in the entries that satisfy [Q] finds the same
    element as searching in the whole list, when [P] implies [Q]. *)
Lemma list_find_filter {A} (P Q : A → Prop)
    `{!∀ x, Decision (P x)} `{!∀ x, Decision (Q x)} (l : list A) :
  (∀ x, P x → Q x) →
  snd <$> list_find P (filter Q l) = snd <$> list_find P l.
Proof.
  intros HPQ. induction l as [|x l IH]; [done|].
  rewrite filter_cons. destruct (decide (Q x)) as [HQ|HQ].
  - cbn. destruct (decide (P x)); [done|].
    destruct (list_find P (filter Q l)) as [[??]|],
      (list_find P l) as [[??]|]; naive_solver.
  - cbn. rewrite decide_False by naive_solver.
    destruct (list_find P (filter Q l)) as [[??]|],
      (list_find P l) as [[??]|]; naive_solver.
Qed.

Lemma handleDragEnd_group st (activeId overId : string) :
  activeId ∈ selectedIds st →
  (1 < size (selectedIds st))%nat →
  activeId ≠ overId →
  handleDragEnd activeId (Some overId) st
  = commitFiles (groupDrag (selectedIds st) activeId overId (files st))
      (setIsDragging false st).
Proof.
  intros Hact Hsize Hne. unfold handleDragEnd.
  rewrite decide_False by done.
  by rewrite decide_True by (by destruct st).
Qed.

(** C2.  Dropping a multi-selection on an unselected entry.  The selected
    entries leave the list and come back as one block inside the
    sequence of unselected entries, both sequences in their original
    order: immediately after the entry of [overId] when the index of
    [activeId] in the original list is strictly less than that of
    [overId], immediately before it otherwise. *)
Theorem groupDrag_onto_unselected st (activeId overId : string) :
  activeId ∈ selectedIds st →
  (1 < size (selectedIds st))%nat →
  overId ∉ selectedIds st →
  overId ∈ ids (files st) →
  let items := files st in
  let selectedItems := filter (λ i, DocFile.id i ∈ selectedIds st) items in
  let unselectedItems := filter (λ i, DocFile.id i ∉ selectedIds st) items in
  let originalActiveIndex :=
    JS.findIndex (λ i, DocFile.id i = activeId) items in
  ∃ (originalOverIndex : nat) (target : DocFile.t) before after,
    list_find (λ i, DocFile.id i = overId) items
      = Some (originalOverIndex, target)
    ∧ unselectedItems = before ++ target :: after
    ∧ Forall (λ i, DocFile.id i ≠ overId) before
    ∧ handleDragEnd activeId (Some overId) st
      = Ok (setFiles
              (if decide (originalActiveIndex < Z.of_nat originalOverIndex)
               then before ++ target :: selectedItems ++ after
               else before ++ selectedItems ++ target :: after)
              (setIsDragging false st)).
Proof.
  intros Hact Hsize Hover Hlive items selectedItems unselectedItems
    originalActiveIndex.
  assert (is_Some (list_find (λ i, DocFile.id i = overId) items))
    as [[j target] Hfind].
  { destruct (proj1 (list_elem_of_fmap _ _ _) Hlive) as (f & -> & Hf).
    by eapply list_find_elem_of. }
  pose proof (list_find_filter (λ i, DocFile.id i = overId)
                (λ i, DocFile.id i ∉ selectedIds st) items) as Hsame.
  rewrite Hfind in Hsame. cbn in Hsame.
  fold unselectedItems in Hsame.
  destruct (list_find _ unselectedItems) as [[j' target']|] eqn:Hfind';
    [|by discriminate Hsame; intros ? ->].
  assert (target' = target) as ->.
  { assert (Some target' = Some target) as [=]; [|done].
    apply Hsame. by intros ? ->. }
  clear Hsame.
  pose proof Hfind' as (Hj'%lookup_lt_Some & _)%list_find_Some.
  pose proof Hfind' as (Hsplit & Hbefore & Htarget)%list_find_split.
  exists j, target, (take j' unselectedItems), (drop (S j') unselectedItems).
  split_and!; [done..|].
  rewrite handleDragEnd_group by (done || by intros ->).
  unfold groupDrag. rewrite decide_True by done.
  fold items unselectedItems selectedItems originalActiveIndex.
  rewrite (findIndex_Some _ _ _ _ Hfind), (findIndex_Some _ _ _ _ Hfind').
  assert (length (take j' unselectedItems) = j') as Hlen
    by (rewrite length_take; lia).
  set (before := take j' unselectedItems) in *.
  set (after := drop (S j') unselectedItems) in *.
  rewrite Hsplit.
  destruct (Z.ltb_spec originalActiveIndex (Z.of_nat j)) as [Hlt|Hge].
  - rewrite decide_True by done. cbn [commitFiles]. do 2 f_equal.
    replace (Z.of_nat j' + 1)
      with (Z.of_nat (length (before ++ [target])))
      by (rewrite length_app, Hlen; simpl; lia).
    rewrite (cons_middle target), app_assoc.
    rewrite splice_insert_at. by rewrite <- !app_assoc.
  - rewrite decide_False by lia. cbn [commitFiles]. do 2 f_equal.
    rewrite <- Hlen. by rewrite splice_insert_at.
Qed.

(** Dragging [A] of the selection [{A, C}] down onto [D]. *)
Lemma groupDrag_onto_unselected_ABCD :
  "A" ∈ selectedIds listABCD
  ∧ (1 < size (selectedIds listABCD))%nat
  ∧ ("D" ∉ selectedIds listABCD)
  ∧ "D" ∈ ids (files listABCD)
  ∧ handleDragEnd "A" (Some "D") listABCD
    = Ok (setFiles [entryB; entryD; entryA; entryC]
            (setIsDragging false listABCD)).
Proof.
  assert ("A" ∈ selectedIds listABCD) as H1 by by_computation.
  assert ((1 < size (selectedIds listABCD))%nat) as H2 by by_computation.
  assert ("D" ∉ selectedIds listABCD) as H3 by by_computation.
  assert ("D" ∈ ids (files listABCD)) as H4 by by_computation.
  split_and!; [exact H1|exact H2|exact H3|exact H4|].
  destruct (groupDrag_onto_unselected listABCD "A" "D" H1 H2 H3 H4)
    as (j & target & before & after & Hfind & Hunsel & Hbefore & ->).
  vm_compute in Hfind. injection Hfind as <- <-.
  assert (before = [entryB] ∧ after = []) as [-> ->].
  { change (filter _ (files listABCD)) with [entryB; entryD] in Hunsel.
    destruct before as [|b1 [|b2 before]].
    - discriminate Hunsel.
    - injection Hunsel as <- <-. done.
    - injection Hunsel as <- <- Hnil.
      by destruct before. }
  reflexivity.
Defined.

(** ** [arrayMove] *)

Section arrayMove_facts.
Context {A : Type}.
Implicit Types (l pre post : list A) (a o x : A).

(** [splice (i, 1)] at a valid index removes that element. *)
Lemma splice_remove_at pre x post :
  JS.splice (pre ++ x :: post) (Z.of_nat (length pre)) 1 []
  = ([x], pre ++ post).
Proof.
  unfold JS.splice. rewrite length_app. cbn [length].
  set (len := Z.of_nat (length pre + S (length post))).
  destruct (Z.ltb_spec (Z.of_nat (length pre)) 0) as [?|_]; [lia|].
  replace (Z.min (Z.of_nat (length pre)) len)
    with (Z.of_nat (length pre)) by lia.
  rewrite Nat2Z.id.
  replace (Z.to_nat (Z.min (Z.max 1 0) (len - Z.of_nat (length pre))))
    with 1%nat by lia.
  rewrite take_app_length, drop_app_length.
  by rewrite <- drop_drop, drop_app_length.
Qed.

(** Moving an element towards the end: the elements in between move
    one place towards the front. *)
Lemma arrayMove_down l1 a l2 o l3 :
  arrayMove (l1 ++ a :: l2 ++ o :: l3)
    (Z.of_nat (length l1)) (Z.of_nat (length l1 + 1 + length l2))
  = Some (l1 ++ l2 ++ o :: a :: l3).
Proof.
  unfold arrayMove. rewrite splice_remove_at.
  destruct (Z.ltb_spec (Z.of_nat (length l1 + 1 + length l2)) 0); [lia|].
  f_equal.
  replace (l1 ++ l2 ++ o :: l3) with ((l1 ++ l2 ++ [o]) ++ l3)
    by (by rewrite <- !app_assoc).
  replace (length l1 + 1 + length l2)%nat with (length (l1 ++ l2 ++ [o]))
    by (rewrite !length_app; simpl; lia).
  rewrite splice_insert_at. by rewrite <- !app_assoc.
Qed.

(** Moving an element towards the front: the elements in between move
    one place towards the end. *)
Lemma arrayMove_up l1 o l2 a l3 :
  arrayMove (l1 ++ o :: l2 ++ a :: l3)
    (Z.of_nat (length l1 + 1 + length l2)) (Z.of_nat (length l1))
  = Some (l1 ++ a :: o :: l2 ++ l3).
Proof.
  unfold arrayMove.
  replace (l1 ++ o :: l2 ++ a :: l3) with ((l1 ++ o :: l2) ++ a :: l3)
    by (by rewrite <- app_assoc).
  replace (length l1 + 1 + length l2)%nat with (length (l1 ++ o :: l2))
    by (rewrite !length_app; simpl; lia).
  rewrite splice_remove_at.
  destruct (Z.ltb_spec (Z.of_nat (length l1)) 0); [lia|].
  f_equal. rewrite <- app_assoc.
  rewrite splice_insert_at. by rewrite <- app_comm_cons.
Qed.

Lemma arrayMove_same pre x post :
  arrayMove (pre ++ x :: post) (Z.of_nat (length pre)) (Z.of_nat (length pre))
  = Some (pre ++ x :: post).
Proof.
  unfold arrayMove. rewrite splice_remove_at.
  destruct (Z.ltb_spec (Z.of_nat (length pre)) 0); [lia|].
  by rewrite splice_insert_at.
Qed.

Lemma splice_remove_spec l (start : Z) :
  ∃ s d : nat,
    (d ≤ 1)%nat
    ∧ JS.splice l start 1 [] = (take d (drop s l), take s l ++ drop (s + d) l).
Proof.
  unfold JS.splice. eexists _, _. split; [|reflexivity]. lia.
Qed.

(** Whatever the indices, a successful move permutes the array. *)
Lemma arrayMove_Permutation l (from to : Z) out :
  arrayMove l from to = Some out → out ≡ₚ l.
Proof.
  destruct (splice_remove_spec l from) as (s & d & Hd & Hsp).
  unfold arrayMove. rewrite Hsp.
  destruct (take d (drop s l)) as [|x removed] eqn:Hrem; [done|].
  intros <-%(inj Some).
  rewrite splice_insert_Permutation.
  assert (d = 1)%nat as ->.
  { destruct d as [|[|?]]; [by rewrite take_0 in Hrem|done|lia]. }
  destruct (drop s l) as [|y rest] eqn:Hdrop; [done|].
  injection Hrem as -> _.
  assert (drop (s + 1) l = rest) as -> by (by rewrite <- drop_drop, Hdrop).
  cbn [app]. etrans; [apply Permutation_middle|].
  by rewrite <- Hdrop, take_drop.
Qed.

(** Two places of one list, in either order. *)
Lemma two_places l i j a o :
  l !! i = Some a → l !! j = Some o → (i < j)%nat →
  ∃ l1 l2 l3,
    l = l1 ++ a :: l2 ++ o :: l3
    ∧ length l1 = i ∧ (length l1 + 1 + length l2)%nat = j.
Proof.
  intros Hi Hj Hlt.
  exists (take i l), (take (j - S i) (drop (S i) l)),
    (drop (S (j - S i)) (drop (S i) l)).
  assert (drop (S i) l !! (j - S i)%nat = Some o) as Ho.
  { rewrite lookup_drop. rewrite <- Hj. f_equal. lia. }
  pose proof (lookup_lt_Some _ _ _ Hi).
  pose proof (lookup_lt_Some _ _ _ Ho) as Hlen.
  rewrite take_drop_middle by done.
  rewrite take_drop_middle by done.
  split_and!; [done|..].
  - rewrite length_take. lia.
  - rewrite !length_take. lia.
Qed.

End arrayMove_facts.

(** Scenario 4 of the spec: entry 0 dragged onto entry 2 of a list of four
    with nothing selected. *)
Example singleDrag_scenario4 :
  handleDragEnd "A" (Some "C") (withList [entryA; entryB; entryC; entryD] ∅)
  = Ok (withList [entryB; entryC; entryA; entryD] ∅).
Proof. reflexivity. Qed.

(** ** Dropping a group on one of its own members *)

(** C3, as stated, fails: with [A, B, C] and [{A, C}] selected, dropping
    [A] on [C] gives [B, C, A].  [B] has left index 1, and index 0 holds
    [B], not [C]. *)
Lemma drag_onto_selected_not_a_swap :
  "A" ∈ selectedIds listABC
  ∧ "C" ∈ selectedIds listABC
  ∧ (1 < size (selectedIds listABC))%nat
  ∧ handleDragEnd "A" (Some "C") listABC
    = Ok (setFiles [entryB; entryC; entryA] (setIsDragging false listABC))
  ∧ ¬ swapped (files listABC) [entryB; entryC; entryA] 0 2.
Proof.
  split_and!; [by_computation..|reflexivity|].
  intros (_ & H0 & _). discriminate H0.
Qed.

(** Two neighbours that change places are swapped. *)
Lemma swapped_neighbours {A} (l1 : list A) x y l3 :
  swapped (l1 ++ x :: y :: l3) (l1 ++ y :: x :: l3)
    (length l1) (S (length l1)).
Proof.
  split_and!.
  - by rewrite !length_app.
  - rewrite !lookup_app_r by lia. rewrite Nat.sub_diag.
    by replace (S (length l1) - length l1)%nat with 1%nat by lia.
  - rewrite !lookup_app_r by lia. rewrite Nat.sub_diag.
    by replace (S (length l1) - length l1)%nat with 1%nat by lia.
  - intros k Hi Hj. destruct (decide (k < length l1)%nat).
    + by rewrite !lookup_app_l by done.
    + rewrite !lookup_app_r by lia.
      destruct (k - length l1)%nat as [|[|m]] eqn:E; [lia|lia|done].
Qed.

Lemma swapped_sym {A} (before after : list A) i j :
  swapped before after i j → swapped before after j i.
Proof.
  intros (? & ? & ? & Hk). split_and!; [done..|]. intros k ??. by apply Hk.
Qed.

(** An entry cannot occur twice in a list with pairwise distinct ids. *)
Lemma NoDup_ids_twice l1 (o : DocFile.t) l2 l3 :
  ¬ NoDup (ids (l1 ++ o :: l2 ++ o :: l3)).
Proof.
  unfold ids. rewrite fmap_app, fmap_cons, fmap_app, fmap_cons.
  intros (_ & _ & [Ho _]%NoDup_cons)%NoDup_app.
  apply Ho, elem_of_app. right. left.
Qed.

(** C3, amended.  Dropping a multi-selection on another selected entry is
    the standard array move of the single-item drag, not a swap: the
    entry of [activeId] is taken out and put back at the index of
    [overId], and the entries between the two places, [l2], move one
    place towards the place [activeId] left; the entries before, [l1],
    and after, [l3], stay where they are.  When the two entries are
    neighbours the move exchanges them, and in a list with pairwise
    distinct ids it is an exchange of the two only then. *)
Theorem drag_onto_selected_moves st (activeId overId : string) :
  activeId ∈ selectedIds st →
  overId ∈ selectedIds st →
  (1 < size (selectedIds st))%nat →
  activeId ≠ overId →
  activeId ∈ ids (files st) →
  overId ∈ ids (files st) →
  let items := files st in
  ∃ (oldIndex newIndex : nat) (a o : DocFile.t) (newFiles : list DocFile.t),
    list_find (λ i, DocFile.id i = activeId) items = Some (oldIndex, a)
    ∧ list_find (λ i, DocFile.id i = overId) items = Some (newIndex, o)
    ∧ handleDragEnd activeId (Some overId) st
      = Ok (setFiles newFiles (setIsDragging false st))
    ∧ (∃ l1 l2 l3,
         ((oldIndex < newIndex)%nat
          ∧ length l1 = oldIndex
          ∧ (length l1 + 1 + length l2)%nat = newIndex
          ∧ items = l1 ++ a :: l2 ++ o :: l3
          ∧ newFiles = l1 ++ l2 ++ o :: a :: l3)
         ∨ ((newIndex < oldIndex)%nat
            ∧ length l1 = newIndex
            ∧ (length l1 + 1 + length l2)%nat = oldIndex
            ∧ items = l1 ++ o :: l2 ++ a :: l3
            ∧ newFiles = l1 ++ a :: o :: l2 ++ l3))
    ∧ (oldIndex = S newIndex ∨ newIndex = S oldIndex →
       swapped items newFiles oldIndex newIndex)
    ∧ (NoDup (ids items) →
       swapped items newFiles oldIndex newIndex →
       oldIndex = S newIndex ∨ newIndex = S oldIndex).
Proof.
  intros Hact Hover Hsize Hne Hacti Hoveri items.
  assert (is_Some (list_find (λ i, DocFile.id i = activeId) items))
    as [[i a] Hfa].
  { destruct (proj1 (list_elem_of_fmap _ _ _) Hacti) as (f & -> & Hf).
    by eapply list_find_elem_of. }
  assert (is_Some (list_find (λ i, DocFile.id i = overId) items))
    as [[j o] Hfo].
  { destruct (proj1 (list_elem_of_fmap _ _ _) Hoveri) as (f & -> & Hf).
    by eapply list_find_elem_of. }
  exists i, j, a, o.
  pose proof Hfa as (Hia & Ha & _)%list_find_Some.
  pose proof Hfo as (Hjo & Ho & _)%list_find_Some.
  rewrite handleDragEnd_group by done.
  unfold groupDrag. rewrite decide_False by (by intros Hn; apply Hn).
  fold items.
  rewrite (findIndex_Some _ _ _ _ Hfa), (findIndex_Some _ _ _ _ Hfo).
  destruct (Nat.lt_total i j) as [Hlt|[->|Hgt]].
  - destruct (two_places items i j a o) as (l1 & l2 & l3 & Hitems & Hi & Hj);
      [done..|].
    exists (l1 ++ l2 ++ o :: a :: l3). split_and!; [done|done|..].
    + rewrite Hitems, <- Hi, <- Hj. by rewrite arrayMove_down.
    + exists l1, l2, l3. left. by split_and!.
    + intros [->| ->]; [lia|].
      destruct l2 as [|y l2]; [|cbn in Hj; lia].
      rewrite Hitems, <- Hi. apply swapped_neighbours.
    + intros Hnodup (_ & Hswap & _). right.
      destruct l2 as [|y l2]; [cbn in Hj; lia|]. exfalso.
      rewrite Hjo, <- Hi in Hswap.
      change ((y :: l2) ++ o :: a :: l3) with (y :: l2 ++ o :: a :: l3)
        in Hswap.
      rewrite list_lookup_middle in Hswap by done. injection Hswap as ->.
      apply (NoDup_ids_twice (l1 ++ [a]) o l2 l3).
      rewrite <- app_assoc.
      change (NoDup (ids (l1 ++ a :: (o :: l2) ++ o :: l3))).
      by rewrite <- Hitems.
  - congruence.
  - destruct (two_places items j i o a) as (l1 & l2 & l3 & Hitems & Hj & Hi);
      [done..|].
    exists (l1 ++ a :: o :: l2 ++ l3). split_and!; [done|done|..].
    + rewrite Hitems, <- Hi, <- Hj. by rewrite arrayMove_up.
    + exists l1, l2, l3. right. by split_and!.
    + intros [->| ->]; [|lia].
      destruct l2 as [|y l2]; [|cbn in Hi; lia].
      rewrite Hitems, <- Hj. apply swapped_sym, swapped_neighbours.
    + intros Hnodup (_ & _ & _ & Hother). left.
      destruct l2 as [|y l2]; [cbn in Hi; lia|]. exfalso.
      specialize (Hother (S j)). rewrite Hitems, <- Hj in Hother.
      rewrite !lookup_app_r in Hother by lia.
      replace (S (length l1) - length l1)%nat with 1%nat in Hother by lia.
      cbn in Hother, Hi.
      assert (Some o = Some y) as [= <-] by (apply Hother; lia).
      apply (NoDup_ids_twice l1 o [] (l2 ++ a :: l3)).
      change (NoDup (ids (l1 ++ o :: (o :: l2) ++ a :: l3))).
      by rewrite <- Hitems.
Qed.

Lemma drag_onto_selected_moves_ABC :
  "A" ∈ selectedIds listABC
  ∧ "C" ∈ selectedIds listABC
  ∧ (1 < size (selectedIds listABC))%nat
  ∧ "A" ≠ "C"
  ∧ "A" ∈ ids (files listABC)
  ∧ "C" ∈ ids (files listABC)
  ∧ handleDragEnd "A" (Some "C") listABC
    = Ok (setFiles [entryB; entryC; entryA] (setIsDragging false listABC)).
Proof.
  assert ("A" ∈ selectedIds listABC) as H1 by by_computation.
  assert ("C" ∈ selectedIds listABC) as H2 by by_computation.
  assert ((1 < size (selectedIds listABC))%nat) as H3 by by_computation.
  assert ("A" ≠ "C") as H4 by done.
  assert ("A" ∈ ids (files listABC)) as H5 by by_computation.
  assert ("C" ∈ ids (files listABC)) as H6 by by_computation.
  split_and!; [exact H1|exact H2|exact H3|exact H4|exact H5|exact H6|].
  destruct (drag_onto_selected_moves listABC "A" "C" H1 H2 H3 H4 H5 H6)
    as (i & j & a & o & newFiles & Hfa & Hfo & -> & (l1 & l2 & l3 & Hcase)
        & _).
  vm_compute in Hfa, Hfo.
  injection Hfa as <- <-. injection Hfo as <- <-.
  destruct Hcase as [(_ & _ & _ & Hitems & ->)|(Hlt & _)]; [|lia].
  cbv -[app] in Hitems.
  destruct l1 as [|? [|? [|? l1]]]; simplify_eq/=;
    try (by destruct l1);
    destruct l2 as [|? [|? [|? l2]]]; simplify_eq/=;
    try (by destruct l2).
  reflexivity.
Defined.

(** Without distinct ids an exchange need not be one of neighbours: with
    the list [P, P, A], where the first two entries are the same, and
    both ids selected, dropping [A] on ["u"] gives [A, P, P], which is
    the list with places 0 and 2 exchanged. *)
Example drag_onto_selected_duplicate :
  handleDragEnd "A" (Some "u") (withList [entryP; entryP; entryA] {["A"; "u"]})
  = Ok (setFiles [entryA; entryP; entryP]
          (setIsDragging false
             (withList [entryP; entryP; entryA] {["A"; "u"]})))
  ∧ swapped [entryP; entryP; entryA] [entryA; entryP; entryP] 2 0.
Proof.
  split; [reflexivity|]. split_and!; [done..|].
  intros [|[|[|k]]] ??; done.
Qed.

(** ** Selection *)



(** C10.  [toggleSelection] never reads the list: an id that is not
    selected becomes selected, whether or not an entry of the list has
    it, and the result is the same for any other list.  So the selection
    stays within the ids of the list when the id passed is the id of an
    entry, and leaves them when it is not. *)
Theorem toggleSelection_ignores_list st (x : string) :
  x ∉ selectedIds st →
  selectedIds (toggleSelection x st) = {[x]} ∪ selectedIds st
  ∧ files (toggleSelection x st) = files st
  ∧ (∀ fs, selectedIds (toggleSelection x (setFiles fs st))
           = selectedIds (toggleSelection x st))
  ∧ (x ∈ ids (files st) → selection_live st →
     selection_live (toggleSelection x st))
  ∧ (x ∉ ids (files st) → ¬ selection_live (toggleSelection x st)).
Proof.
  intros Hx.
  assert (selectedIds (toggleSelection x st) = {[x]} ∪ selectedIds st) as Hsel.
  { unfold toggleSelection. by rewrite decide_False. }
  split_and!.
  - done.
  - done.
  - done.
  - intros Hlive Hinv i. rewrite Hsel.
    intros [->%elem_of_singleton|Hi]%elem_of_union; [done|by apply Hinv].
  - intros Hstale Hinv. apply Hstale, Hinv. rewrite Hsel.
    by apply elem_of_union_l, elem_of_singleton.
Qed.

Lemma toggleSelection_ignores_list_ghost :
  ("ghost" ∉ selectedIds initialState)
  ∧ selectedIds (toggleSelection "ghost" initialState) = {["ghost"]}
  ∧ ¬ selection_live (toggleSelection "ghost" initialState).
Proof.
  assert ("ghost" ∉ selectedIds initialState) as H by by_computation.
  destruct (toggleSelection_ignores_list initialState "ghost" H)
    as (Hsel & _ & _ & _ & Hbreak).
  split_and!; [exact H| |].
  - rewrite Hsel. by vm_compute.
  - apply Hbreak. by_computation.
Defined.


(** ** Ids that are not in the list *)

Lemma not_in_ids (x : string) (fs : list DocFile.t) :
  x ∉ ids fs → Forall (λ f, DocFile.id f ≠ x) fs.
Proof.
  intros Hx. apply Forall_forall. intros f Hf <-.
  apply Hx, list_elem_of_fmap. eauto.
Qed.

Lemma stale_findIndex (x : string) (fs : list DocFile.t) :
  x ∉ ids fs → JS.findIndex (λ f, DocFile.id f = x) fs = -1.
Proof.
  intros Hx%not_in_ids. apply findIndex_None.
  eapply Forall_impl; [exact Hx|]. naive_solver.
Qed.

Lemma stale_filter (x : string) (fs : list DocFile.t) :
  x ∉ ids fs → filter (λ f, DocFile.id f ≠ x) fs = fs.
Proof. intros Hx%not_in_ids. by apply filter_keep_all. Qed.

Lemma stale_rotate (x : string) (fs : list DocFile.t) :
  x ∉ ids fs →
  (λ f, if decide (DocFile.id f = x) then rotate90 f else f) <$> fs = fs.
Proof.
  intros Hx%not_in_ids. induction Hx as [|f fs Hf _ IH]; [done|].
  rewrite fmap_cons, IH. by rewrite decide_False.
Qed.

(** Deleting an id that no entry has only takes it out of the
    selection. *)
Lemma stale_delete_unselects st (x : string) :
  x ∉ ids (files st) →
  handleDelete x st = setSelectedIds (selectedIds st ∖ {[x]}) st.
Proof.
  intros Hx. unfold handleDelete. rewrite stale_filter by done.
  by rewrite setFiles_same.
Qed.

(** C8, as stated, fails: an id that no entry has can be in the selection
    set ([toggleSelection] does not look at the list), and deleting it
    takes it out of the selection. *)
Lemma stale_delete_changes_selection :
  ("ghost" ∉ ids (files (withList [entryA; entryB] {["ghost"]})))
  ∧ handleDelete "ghost" (withList [entryA; entryB] {["ghost"]})
    = withList [entryA; entryB] ∅
  ∧ selectedIds (handleDelete "ghost" (withList [entryA; entryB] {["ghost"]}))
    ≠ selectedIds (withList [entryA; entryB] {["ghost"]}).
Proof.
  split_and!; [by_computation|by vm_compute|by_computation].
Qed.

(** C8, amended.  An id that no entry has.  Rotating it and moving it as
    a single entry return normally and leave the state, hence the list
    and the selection, as it was; deleting it returns normally, leaves
    the list as it was and takes the id out of the selection, which is
    therefore unchanged exactly when the id was not selected.
    [handleMove] moves the id as a single entry unless it is selected
    together with another id. *)
Theorem stale_id_handlers (lib : PDF.Lib) st (x : string) :
  x ∉ ids (files st) →
  dispatch lib (Rotate x) st = Ok st
  ∧ dispatch lib (Delete x) st
    = Ok (setSelectedIds (selectedIds st ∖ {[x]}) st)
  ∧ files (handleDelete x st) = files st
  ∧ (selectedIds (handleDelete x st) = selectedIds st ↔ x ∉ selectedIds st)
  ∧ ∀ direction,
      moveSingle x direction st = Ok st
      ∧ (¬ multiSelected x st → dispatch lib (Move x direction) st = Ok st).
Proof.
  intros Hx. pose proof (stale_delete_unselects st x Hx) as Hdelete.
  assert (∀ direction, moveSingle x direction st = Ok st) as Hsingle.
  { intros direction. unfold moveSingle.
    rewrite stale_findIndex by done. by rewrite decide_True. }
  split_and!.
  - cbn. unfold handleRotate. rewrite stale_rotate by done.
    by rewrite setFiles_same.
  - cbn. by rewrite Hdelete.
  - by rewrite Hdelete.
  - rewrite Hdelete. cbn. split.
    + intros Heq Hsel. apply (not_elem_of_difference x (selectedIds st) {[x]}).
      * right. by apply elem_of_singleton.
      * by rewrite Heq.
    + intros Hsel. by apply difference_disjoint_L, disjoint_singleton_r.
  - intros direction. split; [done|]. intros Hmulti. cbn. unfold handleMove.
    by rewrite decide_False.
Qed.

Lemma stale_id_handlers_ghost :
  ("ghost" ∉ ids (files listABC))
  ∧ dispatch sampleLib (Rotate "ghost") listABC = Ok listABC
  ∧ dispatch sampleLib (Delete "ghost") listABC = Ok listABC
  ∧ moveSingle "ghost" up listABC = Ok listABC
  ∧ moveSingle "ghost" down listABC = Ok listABC.
Proof.
  assert ("ghost" ∉ ids (files listABC)) as H1 by by_computation.
  destruct (stale_id_handlers sampleLib listABC "ghost" H1)
    as (Hrotate & Hdelete & _ & _ & Hmove).
  split_and!;
    [exact H1|exact Hrotate| |exact (proj1 (Hmove up))
    |exact (proj1 (Hmove down))].
  rewrite Hdelete. by vm_compute.
Defined.

(** ** Deleting an entry *)

Lemma handleDelete_idempotent st (x : string) :
  handleDelete x (handleDelete x st) = handleDelete x st.
Proof.
  unfold handleDelete, setSelectedIds, setFiles. destruct st; cbn. f_equal.
  - rewrite list_filter_filter. apply list_filter_iff. intros f. tauto.
  - apply leibniz_equiv. intros i.
    rewrite !elem_of_difference. tauto.
Qed.

(** C6, as stated, fails: deleting the image entry [B] does not release
    its preview URL.  No call of [URL.revokeObjectURL] is made and the
    URL stays live. *)
Lemma delete_releases_nothing :
  entryB ∈ files listB
  ∧ DocFile.id entryB = "B"
  ∧ DocFile.previewUrl entryB = Some 0%nat
  ∧ 0%nat ∈ objectURLs listB
  ∧ revokedURLs (handleDelete "B" listB) = []
  ∧ 0%nat ∈ objectURLs (handleDelete "B" listB)
  ∧ ¬ releasedOnce 0%nat listB (handleDelete "B" listB).
Proof.
  split_and!.
  - left.
  - reflexivity.
  - reflexivity.
  - by_computation.
  - reflexivity.
  - by_computation.
  - intros [Hlog _]. discriminate Hlog.
Qed.

(** C6, amended.  In a list with pairwise distinct ids, deleting the id
    of an entry removes exactly that entry and takes the id out of the
    selection.  Nothing is released: the object URLs that are live and
    the record of revoked ones are as before, whether or not the entry
    had a preview.  Deleting the same id again changes nothing. *)
Theorem handleDelete_removes_entry st (x : string) pre (e : DocFile.t) post :
  NoDup (ids (files st)) →
  files st = pre ++ e :: post →
  DocFile.id e = x →
  let st' := handleDelete x st in
  files st' = pre ++ post
  ∧ selectedIds st' = selectedIds st ∖ {[x]}
  ∧ objectURLs st' = objectURLs st
  ∧ revokedURLs st' = revokedURLs st
  ∧ handleDelete x st' = st'.
Proof.
  intros Hnodup Hfiles <- st'. split_and!; [|done..|].
  - unfold st', handleDelete. cbn. rewrite Hfiles in Hnodup |- *.
    pose proof (NoDup_ids_fresh _ _ _ Hnodup) as Hpre.
    assert (Forall (λ g, DocFile.id g ≠ DocFile.id e) post) as Hpost.
    { unfold ids in Hnodup. rewrite fmap_app, fmap_cons in Hnodup.
      apply NoDup_app in Hnodup as (_ & _ & [Hnotin _]%NoDup_cons).
      apply Forall_forall. intros g Hg Heq. apply Hnotin.
      rewrite <- Heq. apply list_elem_of_fmap. eauto. }
    rewrite filter_app, filter_cons.
    rewrite decide_False by (by intros Hn; apply Hn).
    by rewrite !filter_keep_all.
  - apply handleDelete_idempotent.
Qed.

Lemma handleDelete_removes_entry_B :
  NoDup (ids (files listB))
  ∧ files listB = [] ++ entryB :: []
  ∧ DocFile.id entryB = "B"
  ∧ files (handleDelete "B" listB) = []
  ∧ objectURLs (handleDelete "B" listB) = objectURLs listB
  ∧ revokedURLs (handleDelete "B" listB) = revokedURLs listB.
Proof.
  assert (NoDup (ids (files listB))) as H1 by by_computation.
  assert (files listB = [] ++ entryB :: []) as H2 by reflexivity.
  assert (DocFile.id entryB = "B") as H3 by reflexivity.
  destruct (handleDelete_removes_entry listB "B" [] entryB [] H1 H2 H3)
    as (Hfiles & _ & Hlive & Hlog & _).
  by split_and!.
Defined.


(** ** The merge pipeline *)

Section merge_facts.
Variable lib : PDF.Lib.

Lemma addCopiedPages_app docFile copiedPages mergedPdf :
  addCopiedPages docFile copiedPages mergedPdf
  = mergedPdf ++ (rotatedCopy docFile <$> copiedPages).
Proof.
  unfold addCopiedPages. revert mergedPdf.
  induction copiedPages as [|page pages IH]; intros mergedPdf; cbn.
  - by rewrite app_nil_r.
  - rewrite IH, <- app_assoc. done.
Qed.

(** An entry only appends to [mergedPdf]. *)
Lemma mergeEntry_acc mergedPdf docFile :
  mergeEntry lib mergedPdf docFile
  = match mergeEntry lib [] docFile with
    | Ok pages => Ok (mergedPdf ++ pages)
    | Throw e => Throw e
    end.
Proof.
  unfold mergeEntry.
  destruct (File.arrayBuffer (DocFile.file docFile)) as [fileBytes|]; [|done].
  cbn. destruct (DocFile.type docFile).
  - destruct (PDF.load lib fileBytes) as [copiedPages|]; [|done]. cbn.
    by rewrite !addCopiedPages_app.
  - destruct (isJpeg _).
    + by destruct (PDF.embedJpg lib fileBytes).
    + by destruct (PDF.embedPng lib fileBytes).
  - by destruct (placeholderPage lib docFile).
  - by destruct (placeholderPage lib docFile).
Qed.

Lemma mergeLoop_acc fs mergedPdf :
  mergeLoop lib fs mergedPdf
  = match mergeLoop lib fs [] with
    | Ok pages => Ok (mergedPdf ++ pages)
    | Throw e => Throw e
    end.
Proof.
  revert mergedPdf. induction fs as [|docFile fs IH]; intros mergedPdf; cbn.
  - by rewrite app_nil_r.
  - rewrite mergeEntry_acc.
    destruct (mergeEntry lib [] docFile) as [pages|e]; [|done]. cbn.
    rewrite IH, (IH pages).
    destruct (mergeLoop lib fs []); [|done]. by rewrite app_assoc.
Qed.

Lemma mergeLoop_app fs1 fs2 mergedPdf :
  mergeLoop lib (fs1 ++ fs2) mergedPdf
  = match mergeLoop lib fs1 mergedPdf with
    | Ok pages => mergeLoop lib fs2 pages
    | Throw e => Throw e
    end.
Proof.
  revert mergedPdf. induction fs1 as [|docFile fs1 IH]; intros mergedPdf.
  - done.
  - cbn. destruct (mergeEntry lib mergedPdf docFile); [|done]. cbn. apply IH.
Qed.

(** The pages a pdf entry contributes. *)
Lemma mergeEntry_pdf docFile fileBytes srcPages :
  DocFile.type docFile = pdf →
  File.arrayBuffer (DocFile.file docFile) = Some fileBytes →
  PDF.load lib fileBytes = Some srcPages →
  mergeEntry lib [] docFile = Ok (rotatedCopy docFile <$> srcPages).
Proof.
  intros Htype Hbytes Hload. unfold mergeEntry.
  rewrite Hbytes, Htype. cbn. rewrite Hload. cbn.
  by rewrite addCopiedPages_app.
Qed.

(** One failing entry makes the whole loop throw. *)
Lemma mergeLoop_Throw fs mergedPdf :
  Exists (entryFails lib) fs → ∃ e, mergeLoop lib fs mergedPdf = Throw e.
Proof.
  intros Hfail. revert mergedPdf.
  induction fs as [|docFile fs IH]; intros mergedPdf.
  - by apply Exists_nil in Hfail.
  - cbn. rewrite mergeEntry_acc.
    destruct (mergeEntry lib [] docFile) as [pages|e] eqn:Hentry; [|by eauto].
    cbn. apply IH.
    apply Exists_cons in Hfail as [[e He]|Hfail]; [congruence|done].
Qed.

(** What [handleMerge] does when the loop completes, and when it throws. *)
Lemma handleMerge_success st mergedPdf :
  files st ≠ [] →
  mergeLoop lib (files st) [] = Ok mergedPdf →
  handleMerge lib st
  = setIsProcessing false
      (revokeObjectURL (nextObjectURL st)
         (download
            ((if decide (fileName st = EmptyString) then "documento_fusionado"
              else fileName st) +:+ ".pdf")
            mergedPdf
            (createObjectURL (setIsProcessing true st)).2)).
Proof.
  intros Hne Hloop. unfold handleMerge.
  rewrite decide_False by (by destruct (files st)).
  cbn. rewrite Hloop. done.
Qed.

Lemma handleMerge_failure st e :
  mergeLoop lib (files st) [] = Throw e →
  handleMerge lib st
  = setIsProcessing false
      (alert merge_alert
         (console_error "Error al fusionar:" (setIsProcessing true st))).
Proof.
  intros Hloop. unfold handleMerge.
  rewrite decide_False by (by destruct (files st)).
  cbn. by rewrite Hloop.
Qed.

End merge_facts.

(** C4, as stated, fails: a page whose own rotation is 270, in an entry
    rotated by 180, comes out with rotation 450, the plain sum, and not
    with 90, the sum mod 360. *)
Lemma pdf_rotation_not_reduced :
  DocFile.type overTurn = pdf
  ∧ DocFile.rotation overTurn = 180
  ∧ PDF.load sampleLib [Byte.x03] = Some [samplePage 270]
  ∧ mergeLoop sampleLib [overTurn] [] = Ok [samplePage 450]
  ∧ PDF.getRotation (samplePage 450)
    ≠ (PDF.getRotation (samplePage 270) + DocFile.rotation overTurn) `mod` 360.
Proof. split_and!; done. Qed.

(** C4, amended.  When the pipeline completes, a pdf entry contributes the
    pages of its source document in their original order, between the
    pages of the entries before it and those of the entries after it, and
    the rotation of each output page is the plain sum of the page's own
    rotation and the entry's rotation.  The sum is not reduced mod 360: it
    is congruent to the reduced value, and equal to it exactly when it
    lies between 0 and 359. *)
Theorem pdf_pages_in_order_rotation_added (lib : PDF.Lib)
    (pre post : list DocFile.t) (docFile : DocFile.t)
    (fileBytes : list Byte.byte) (srcPages out : list PDF.Page) :
  DocFile.type docFile = pdf →
  File.arrayBuffer (DocFile.file docFile) = Some fileBytes →
  PDF.load lib fileBytes = Some srcPages →
  mergeLoop lib (pre ++ docFile :: post) [] = Ok out →
  ∃ before after,
    mergeLoop lib pre [] = Ok before
    ∧ mergeLoop lib post [] = Ok after
    ∧ out = before ++ (rotatedCopy docFile <$> srcPages) ++ after
    ∧ Forall2
        (λ src dst,
           PDF.getRotation dst
           = PDF.getRotation src + DocFile.rotation docFile
           ∧ PDF.getRotation dst `mod` 360
             = (PDF.getRotation src + DocFile.rotation docFile) `mod` 360
           ∧ (0 ≤ PDF.getRotation src + DocFile.rotation docFile < 360 ↔
              PDF.getRotation dst
              = (PDF.getRotation src + DocFile.rotation docFile) `mod` 360)
           ∧ PDF.getSize dst = PDF.getSize src
           ∧ PDF.content dst = PDF.content src)
        srcPages (rotatedCopy docFile <$> srcPages).
Proof.
  intros Htype Hbytes Hload Hloop.
  rewrite mergeLoop_app in Hloop.
  destruct (mergeLoop lib pre []) as [before|] eqn:Hpre; [|done].
  cbn in Hloop. rewrite mergeEntry_acc in Hloop.
  rewrite (mergeEntry_pdf lib _ _ _ Htype Hbytes Hload) in Hloop.
  cbn in Hloop. rewrite mergeLoop_acc in Hloop.
  destruct (mergeLoop lib post []) as [after|] eqn:Hpost; [|done].
  apply (inj Ok) in Hloop as <-.
  exists before, after. split_and!; [done|done|by rewrite <- app_assoc|].
  apply Forall2_fmap_r, Forall_Forall2_diag, Forall_forall.
  intros page _. cbn. split_and!; try done.
  split.
  - intros ?. by rewrite Z.mod_small.
  - intros ->. by apply Z.mod_pos_bound.
Qed.

(** Scenario 2 of the spec, through the whole of [handleMerge]. *)
Lemma pdf_pages_in_order_rotation_added_scenario2 :
  DocFile.type scenario2 = pdf
  ∧ File.arrayBuffer (DocFile.file scenario2) = Some [Byte.x01]
  ∧ PDF.load sampleLib [Byte.x01] = Some [samplePage 90]
  ∧ DocFile.rotation scenario2 = 180
  ∧ mergeLoop sampleLib [scenario2] [] = Ok [samplePage 270]
  ∧ downloads (handleMerge sampleLib (withList [scenario2] ∅))
    = [("documento_fusionado.pdf", [samplePage 270])].
Proof.
  assert (DocFile.type scenario2 = pdf) as H1 by reflexivity.
  assert (File.arrayBuffer (DocFile.file scenario2) = Some [Byte.x01]) as H2
    by reflexivity.
  assert (PDF.load sampleLib [Byte.x01] = Some [samplePage 90]) as H3
    by reflexivity.
  assert (mergeLoop sampleLib ([] ++ scenario2 :: []) []
          = Ok [samplePage 270]) as H4 by reflexivity.
  destruct (pdf_pages_in_order_rotation_added sampleLib [] [] scenario2
              [Byte.x01] [samplePage 90] [samplePage 270] H1 H2 H3 H4)
    as (before & after & Hbefore & Hafter & Hout & Hrot).
  split_and!; [exact H1|exact H2|exact H3|reflexivity|exact H4|].
  rewrite (handleMerge_success sampleLib _ [samplePage 270]); done.
Defined.

(** ** Failure of the pipeline *)

(** The steps of [placeholderPage] that can fail: the embedding of the
    two fonts, then the measuring and the encoding of the three texts. *)
Lemma placeholderPage_steps (lib : PDF.Lib) (f : DocFile.t) :
  (∃ e, placeholderPage lib f = Throw e) ↔
  match PDF.embedFont lib PDF.HelveticaBold,
        PDF.embedFont lib PDF.Helvetica with
  | Some fontBold, Some fontRegular =>
      let title := "Documento Pendiente de Procesar" in
      let subtext :=
        "Para ver el contenido real, configure el servidor backend." in
      PDF.widthOfTextAtSize lib fontBold title 20 = None
      ∨ PDF.widthOfTextAtSize lib fontRegular (DocFile.name f) 14 = None
      ∨ PDF.widthOfTextAtSize lib fontRegular subtext 10 = None
      ∨ PDF.encodeText lib fontBold title = None
      ∨ PDF.encodeText lib fontRegular (DocFile.name f) = None
      ∨ PDF.encodeText lib fontRegular subtext = None
  | _, _ => True
  end.
Proof.
  unfold placeholderPage, drawText. cbn.
  destruct (PDF.embedFont lib PDF.HelveticaBold) as [fontBold|]; cbn;
    [|split; [done|by eexists]].
  destruct (PDF.embedFont lib PDF.Helvetica) as [fontRegular|]; cbn;
    [|split; [done|by eexists]].
  destruct (PDF.widthOfTextAtSize lib fontBold _ _); cbn;
    [|split; [by left|by eexists]].
  destruct (PDF.widthOfTextAtSize lib fontRegular (DocFile.name f) _); cbn;
    [|split; [by right; left|by eexists]].
  destruct (PDF.widthOfTextAtSize lib fontRegular _ _); cbn;
    [|split; [by right; right; left|by eexists]].
  destruct (PDF.encodeText lib fontBold _); cbn;
    [|split; [by right; right; right; left|by eexists]].
  destruct (PDF.encodeText lib fontRegular (DocFile.name f)); cbn;
    [|split; [by right; right; right; right; left|by eexists]].
  destruct (PDF.encodeText lib fontRegular _); cbn;
    [|split; [by do 5 right|by eexists]].
  split; [by intros [e ?]|]. intros [?|[?|[?|[?|[?|?]]]]]; done.
Qed.

(** The steps of [mergeEntry] that can fail, entry type by entry type. *)
Lemma entryFails_steps (lib : PDF.Lib) (f : DocFile.t) :
  entryFails lib f ↔
  match File.arrayBuffer (DocFile.file f) with
  | None => True
  | Some fileBytes =>
      match DocFile.type f with
      | pdf => PDF.load lib fileBytes = None
      | image =>
          (if isJpeg (DocFile.file f) then PDF.embedJpg lib fileBytes
           else PDF.embedPng lib fileBytes) = None
      | office | text => ∃ e, placeholderPage lib f = Throw e
      end
  end.
Proof.
  unfold entryFails, mergeEntry.
  destruct (File.arrayBuffer (DocFile.file f)) as [fileBytes|]; cbn;
    [|split; [done|by eexists]].
  destruct (DocFile.type f).
  - destruct (PDF.load lib fileBytes); cbn;
      [split; [by intros [e ?]|done] | split; [done|by eexists]].
  - destruct (isJpeg _).
    + destruct (PDF.embedJpg lib fileBytes); cbn;
        [split; [by intros [e ?]|done] | split; [done|by eexists]].
    + destruct (PDF.embedPng lib fileBytes); cbn;
        [split; [by intros [e ?]|done] | split; [done|by eexists]].
  - destruct (placeholderPage lib f); cbn;
      [split; by intros [e ?] | split; by eexists].
  - destruct (placeholderPage lib f); cbn;
      [split; by intros [e ?] | split; by eexists].
Qed.

(** C7.  If a step fails for some entry of the list, [handleMerge] hands
    out no file, neither the whole document nor the pages of any prefix,
    and creates no object URL for one; it shows one alert, the fixed
    failure message; and the list and the selection are as they were. *)
Theorem merge_failure_aborts (lib : PDF.Lib) st (f : DocFile.t) :
  f ∈ files st →
  entryFails lib f →
  let st' := handleMerge lib st in
  downloads st' = downloads st
  ∧ objectURLs st' = objectURLs st
  ∧ alerts st' = alerts st ++ [merge_alert]
  ∧ files st' = files st
  ∧ selectedIds st' = selectedIds st
  ∧ isProcessing st' = false.
Proof.
  intros Hin Hfail st'.
  destruct (mergeLoop_Throw lib (files st) []) as [e Hloop].
  { apply Exists_exists. eauto. }
  unfold st'. rewrite (handleMerge_failure lib st e Hloop). done.
Qed.

(** A good entry followed by one that does not load: nothing is handed
    out, not even the page of the good entry. *)
Lemma merge_failure_aborts_corrupt :
  corrupt ∈ files (withList [scenario2; corrupt] ∅)
  ∧ entryFails sampleLib corrupt
  ∧ mergeEntry sampleLib [] scenario2 = Ok [samplePage 270]
  ∧ downloads (handleMerge sampleLib (withList [scenario2; corrupt] ∅)) = []
  ∧ alerts (handleMerge sampleLib (withList [scenario2; corrupt] ∅))
    = [merge_alert].
Proof.
  assert (corrupt ∈ files (withList [scenario2; corrupt] ∅)) as H1
    by (right; left).
  assert (entryFails sampleLib corrupt) as H2 by (by eexists).
  destruct (merge_failure_aborts sampleLib _ corrupt H1 H2)
    as (Hdl & _ & Hal & _).
  split_and!; [exact H1|exact H2|reflexivity|exact Hdl|exact Hal].
Defined.


(** ** Distinct ids *)

Lemma newFilesOf_ids (fileList : list (File.t * string)) st :
  ids (newFilesOf fileList st).1 = generatedIds fileList
  ∧ files (newFilesOf fileList st).2 = files st.
Proof.
  revert st. induction fileList as [|[file draw] rest IH]; intros st; [done|].
  cbn [newFilesOf].
  destruct (JS.startsWith (File.type file) "image/").
  - destruct (createObjectURL st) as [url st1] eqn:Hurl.
    assert (files st1 = files st) as Hfiles.
    { unfold createObjectURL in Hurl. by injection Hurl as _ <-. }
    destruct (IH st1) as [Hids Hsame].
    destruct (newFilesOf rest st1) as [entries st2].
    cbn in *. split; [by rewrite Hids|congruence].
  - destruct (IH st) as [Hids Hsame].
    destruct (newFilesOf rest st) as [entries st2].
    cbn in *. split; [by rewrite Hids|done].
Qed.

(** [handleFilesSelected] appends the entries with the ids cut from the
    draws, without looking at the ids in the list. *)
Lemma handleFilesSelected_ids (fileList : list (File.t * string)) st :
  ids (files (handleFilesSelected (Some fileList) st))
  = ids (files st) ++ generatedIds fileList.
Proof.
  unfold handleFilesSelected.
  destruct (newFilesOf_ids fileList st) as [Hids Hsame].
  destruct (newFilesOf fileList st) as [newFiles st']. cbn in *.
  unfold ids in *. by rewrite fmap_app, Hids, Hsame.
Qed.

Lemma handleMerge_files (lib : PDF.Lib) st :
  files (handleMerge lib st) = files st.
Proof.
  unfold handleMerge. case_decide; [done|].
  cbn. by destruct (mergeLoop lib (files st) []).
Qed.

Lemma NoDup_ids_Permutation (fs fs' : list DocFile.t) :
  fs' ≡ₚ fs → NoDup (ids fs) → NoDup (ids fs').
Proof. intros Hperm. unfold ids. by rewrite Hperm. Qed.

Lemma NoDup_ids_filter (P : DocFile.t → Prop) `{!∀ f, Decision (P f)}
    (fs : list DocFile.t) :
  NoDup (ids fs) → NoDup (ids (filter P fs)).
Proof.
  intros Hnodup. eapply sublist_NoDup; [exact Hnodup|].
  unfold ids. apply fmap_sublist, sublist_filter.
Qed.

Lemma ids_rotate (P : DocFile.t → Prop) `{!∀ f, Decision (P f)}
    (fs : list DocFile.t) :
  ids ((λ f, if decide (P f) then rotate90 f else f) <$> fs) = ids fs.
Proof.
  unfold ids. rewrite <- list_fmap_compose. apply list_fmap_ext.
  intros i f _. cbn. by case_decide.
Qed.

Lemma commitFiles_ids (fs : option (list DocFile.t)) st st' :
  commitFiles fs st = Ok st' →
  (∀ out, fs = Some out → out ≡ₚ files st) →
  NoDup (ids (files st)) → NoDup (ids (files st')).
Proof.
  destruct fs as [out|]; [|done]. cbn. intros <-%(inj Ok) Hperm.
  cbn. by apply NoDup_ids_Permutation, Hperm.
Qed.

Lemma groupDrag_Permutation sel (activeId overId : string)
    (items out : list DocFile.t) :
  groupDrag sel activeId overId items = Some out → out ≡ₚ items.
Proof.
  unfold groupDrag. case_decide.
  - destruct (_ <? _); intros <-%(inj Some);
      rewrite splice_insert_Permutation; apply filter_app_complement.
  - apply arrayMove_Permutation.
Qed.

(** Every handler keeps the ids of the list pairwise distinct, ingestion
    provided its draws are fresh. *)
Lemma dispatch_NoDup (lib : PDF.Lib) (ev : Event) st st' :
  dispatch lib ev st = Ok st' →
  fresh_event ev st →
  NoDup (ids (files st)) → NoDup (ids (files st')).
Proof.
  intros Hstep Hfresh Hnodup.
  destruct ev; cbn in Hstep; try apply (inj Ok) in Hstep as <-.
  - destruct fileList as [fileList|]; [|done].
    rewrite handleFilesSelected_ids. destruct Hfresh as [Hnew Hdisj].
    apply NoDup_app. split_and!; [done| |done].
    intros i Hi Hgen. by apply (Hdisj i).
  - done.
  - unfold handleDragEnd in Hstep.
    destruct over as [overId|]; [|by apply (inj Ok) in Hstep as <-].
    case_decide; [by apply (inj Ok) in Hstep as <-|].
    case_decide.
    + eapply commitFiles_ids; [exact Hstep| |done].
      intros out Hout. by apply groupDrag_Permutation in Hout.
    + eapply commitFiles_ids; [exact Hstep| |done].
      intros out Hout. by apply arrayMove_Permutation in Hout.
  - cbn. by rewrite ids_rotate.
  - cbn. by rewrite ids_rotate.
  - cbn. by apply NoDup_ids_filter.
  - cbn. by apply NoDup_ids_filter.
  - cbn. constructor.
  - unfold handleMove in Hstep. case_decide.
    + destruct (moveGroup _ _ _) as [newFiles|] eqn:Hmove; [|done].
      cbn in Hstep. apply (inj Ok) in Hstep as <-. cbn.
      apply moveGroup_Permutation in Hmove.
      by apply (NoDup_ids_Permutation (files st)).
    + unfold moveSingle in Hstep.
      case_decide; [by apply (inj Ok) in Hstep as <-|].
      case_decide; [by apply (inj Ok) in Hstep as <-|].
      eapply commitFiles_ids; [exact Hstep| |done].
      intros out Hout. by apply arrayMove_Permutation in Hout.
  - done.
  - unfold toggleSelectAll. by case_decide.
  - done.
  - by rewrite handleMerge_files.
Qed.

(** C5, as stated, fails: [generateId] keeps nine base-36 digits of a
    random number and nothing compares the result with the ids in the
    list.  Two uploads whose draws agree in those digits leave the list
    with the same id twice. *)
Lemma ids_can_collide :
  "0.4fzyo82mvyq" ≠ "0.4fzyo82mvyt"
  ∧ reachable sampleLib afterFirstUpload
  ∧ reachable sampleLib afterSecondUpload
  ∧ ids (files afterFirstUpload) = ["4fzyo82mv"]
  ∧ ids (files afterSecondUpload) = ["4fzyo82mv"; "4fzyo82mv"]
  ∧ ¬ NoDup (ids (files afterSecondUpload)).
Proof.
  assert (reachable sampleLib afterFirstUpload) as Hfirst.
  { apply (reachable_step _ initialState (FilesSelected (Some firstUpload)));
      [constructor|reflexivity]. }
  split_and!; [done|exact Hfirst| |reflexivity|reflexivity|by_computation].
  by apply (reachable_step _ afterFirstUpload
              (FilesSelected (Some secondUpload))).
Qed.

(** C5, amended.  Along every run in which each upload draws fresh ids,
    the ids of the list are pairwise distinct: no handler other than the
    ingestion can break this.  The ingestion appends the ids cut from its
    draws as they are, so after it the ids are pairwise distinct exactly
    when the draws are fresh: pairwise distinct among themselves and
    different from the ids already in the list. *)
Theorem ids_distinct_while_draws_fresh (lib : PDF.Lib) st :
  reachable_fresh lib st →
  NoDup (ids (files st))
  ∧ ∀ fileList,
      ids (files (handleFilesSelected (Some fileList) st))
      = ids (files st) ++ generatedIds fileList
      ∧ (NoDup (ids (files (handleFilesSelected (Some fileList) st)))
         ↔ fresh_draws fileList (files st)).
Proof.
  intros Hreach.
  assert (NoDup (ids (files st))) as Hnodup.
  { induction Hreach as [|st ev st' _ IH Hfresh Hstep]; [constructor|].
    by eapply dispatch_NoDup. }
  split; [done|]. intros fileList. split; [apply handleFilesSelected_ids|].
  rewrite handleFilesSelected_ids, NoDup_app. unfold fresh_draws. split.
  - intros (_ & Hdisj & Hnew). split; [done|].
    intros i Hgen Hi. by apply (Hdisj i).
  - intros [Hnew Hdisj]. split_and!; [done| |done].
    intros i Hi Hgen. by apply (Hdisj i).
Qed.

Lemma ids_distinct_while_draws_fresh_upload :
  reachable_fresh sampleLib afterFirstUpload
  ∧ NoDup (ids (files afterFirstUpload))
  ∧ ¬ fresh_draws secondUpload (files afterFirstUpload).
Proof.
  assert (reachable_fresh sampleLib afterFirstUpload) as H.
  { apply (reachable_fresh_step _ initialState
             (FilesSelected (Some firstUpload))); [constructor| |reflexivity].
    split; [by_computation|]. intros i _. by_computation. }
  destruct (ids_distinct_while_draws_fresh sampleLib afterFirstUpload H)
    as [Hnodup Happend].
  split_and!; [exact H|exact Hnodup|].
  intros Hfresh%(Happend secondUpload). revert Hfresh. by_computation.
Defined.

(** ** Further scenarios of the spec *)

(** Four rotations bring an entry back to where it was. *)
Lemma rotate90_four (f : DocFile.t) :
  DocFile.rotation f ∈ [0; 90; 180; 270] →
  rotate90 (rotate90 (rotate90 (rotate90 f))) = f.
Proof.
  destruct f as [i fl n s t p r]. cbn.
  rewrite !elem_of_cons, elem_of_nil.
  by intros [->|[->|[->|[->|[]]]]].
Qed.

(** After a bulk delete nothing is selected, whatever was. *)
Lemma handleBulkDelete_selection st :
  selectedIds (handleBulkDelete st) = ∅
  ∧ files (handleBulkDelete st)
    = filter (λ f, DocFile.id f ∉ selectedIds st) (files st).
Proof. done. Qed.

(** Moving the first entry up changes nothing. *)
Example moveSingle_first_up :
  handleMove "A" up (withList [entryA; entryB; entryC] ∅)
  = Ok (withList [entryA; entryB; entryC] ∅).
Proof. reflexivity. Qed.

(** Up and then down again restores the order. *)
Example moveSingle_up_down :
  handleMove "B" up (withList [entryA; entryB; entryC] ∅)
  = Ok (withList [entryB; entryA; entryC] ∅)
  ∧ handleMove "B" down (withList [entryB; entryA; entryC] ∅)
    = Ok (withList [entryA; entryB; entryC] ∅).
Proof. split; reflexivity. Qed.

(** Moving a group down: the mirror image of scenario 1. *)
Example moveGroup_down_ABCD :
  handleMove "A" down listABCD
  = Ok (setFiles [entryB; entryD; entryA; entryC] listABCD).
Proof. reflexivity. Qed.

(** A selection none of whose ids is in the list: [Math.min ()] is
    [Infinity] and reading [prev[Infinity - 1].id] throws. *)
Example moveGroup_no_live_id :
  handleMove "X" up (withList [entryA; entryB] {["X"; "Y"]})
  = Throw TypeError_undefined_id.
Proof. reflexivity. Qed.

(** Scenario 3: a single text entry gives one A4 page holding the three
    lines and the frame of the placeholder. *)
Example merge_scenario3 :
  DocFile.type entryD = text
  ∧ ∃ page,
      downloads (handleMerge sampleLib (withList [entryD] ∅))
      = [("documento_fusionado.pdf", [page])]
      ∧ PDF.getSize page = (595, 842)%Q
      ∧ PDF.getRotation page = 0
      ∧ length (PDF.content page) = 4%nat.
Proof. split; [reflexivity|]. eexists. split_and!; reflexivity. Qed.

(** A text entry whose name the font cannot encode: the measuring of the
    name throws inside the [try] block, so the merge ends in the alert
    and hands out nothing, not even the page of the entry before it. *)
Example merge_unencodable_name :
  DocFile.type entryF = text
  ∧ PDF.widthOfTextAtSize sampleLib PDF.Helvetica (DocFile.name entryF) 14
    = None
  ∧ mergeEntry sampleLib [] entryF = Throw "widthOfTextAtSize"
  ∧ mergeLoop sampleLib [scenario2; entryF] [] = Throw "widthOfTextAtSize"
  ∧ downloads (handleMerge sampleLib (withList [scenario2; entryF] ∅)) = []
  ∧ alerts (handleMerge sampleLib (withList [scenario2; entryF] ∅))
    = [merge_alert].
Proof. split_and!; reflexivity. Qed.

(** The classifier looks at the suffix only, whatever the case. *)
Example getFileType_examples :
  getFileType "Report.PDF" = pdf
  ∧ getFileType "scan.jpeg" = image
  ∧ getFileType "sheet.xlsx" = office
  ∧ getFileType "notes.txt" = text
  ∧ getFileType "archive.pdf.zip" = text.
Proof. by split_and!. Qed.

Example generateId_examples :
  generateId "0.4fzyo82mvyq" = "4fzyo82mv"
  ∧ generateId "0.i" = "i".
Proof. by split_and!. Qed.

(** * Further properties of the handlers *)

(** ** Reordering *)

Lemma handleMove_Permutation (id : string) (direction : Direction) st st' :
  handleMove id direction st = Ok st' →
  files st' ≡ₚ files st ∧ st' = setFiles (files st') st.
Proof.
  unfold handleMove. case_decide.
  - destruct (moveGroup _ _ _) as [newFiles|] eqn:Hmove; [|done].
    cbn. intros <-%(inj Ok). split; [|done].
    cbn. by apply moveGroup_Permutation in Hmove.
  - unfold moveSingle.
    case_decide; [intros <-%(inj Ok); by rewrite setFiles_same|].
    case_decide; [intros <-%(inj Ok); by rewrite setFiles_same|].
    destruct (arrayMove _ _ _) as [out|] eqn:Hout; [|done].
    cbn. intros <-%(inj Ok). split; [|done].
    cbn. by apply arrayMove_Permutation in Hout.
Qed.

Lemma handleDragEnd_Permutation (active : string) (over : option string)
    st st' :
  handleDragEnd active over st = Ok st' →
  files st' ≡ₚ files st
  ∧ st' = setFiles (files st') (setIsDragging false st).
Proof.
  unfold handleDragEnd.
  destruct over as [overId|];
    [|intros <-%(inj Ok); by rewrite setFiles_same].
  case_decide; [intros <-%(inj Ok); by rewrite setFiles_same|].
  case_decide.
  - destruct (groupDrag _ _ _ _) as [out|] eqn:Hout; [|done].
    cbn. intros <-%(inj Ok). split; [|done].
    cbn. by apply groupDrag_Permutation in Hout.
  - unfold singleDrag.
    destruct (arrayMove _ _ _) as [out|] eqn:Hout; [|done].
    cbn. intros <-%(inj Ok). split; [|done].
    cbn. by apply arrayMove_Permutation in Hout.
Qed.

(** X3.  A move with the arrows or a drag that returns normally only
    reorders: the new list is a permutation of the old one, of the same
    length, and the selection is untouched. *)
Theorem reorder_keeps_entries st st' :
  (∃ id direction, handleMove id direction st = Ok st')
  ∨ (∃ active over, handleDragEnd active over st = Ok st') →
  files st' ≡ₚ files st
  ∧ length (files st') = length (files st)
  ∧ selectedIds st' = selectedIds st.
Proof.
  intros [(id & direction & [Hperm Heq]%handleMove_Permutation)
         |(active & over & [Hperm Heq]%handleDragEnd_Permutation)].
  - split_and!; [done|by apply Permutation_length|by rewrite Heq].
  - split_and!; [done|by apply Permutation_length|by rewrite Heq].
Qed.

Lemma reorder_keeps_entries_ABCD :
  handleDragEnd "A" (Some "D") listABCD
  = Ok (setFiles [entryB; entryD; entryA; entryC]
          (setIsDragging false listABCD))
  ∧ [entryB; entryD; entryA; entryC] ≡ₚ files listABCD.
Proof.
  assert (handleDragEnd "A" (Some "D") listABCD
          = Ok (setFiles [entryB; entryD; entryA; entryC]
                  (setIsDragging false listABCD))) as H by reflexivity.
  split; [exact H|].
  apply (reorder_keeps_entries listABCD
           (setFiles [entryB; entryD; entryA; entryC]
              (setIsDragging false listABCD))).
  right. exists "A", (Some "D"). exact H.
Defined.

Lemma indicesFrom_upper sel (off : nat) (prev : list DocFile.t) :
  Forall (λ z, z < Z.of_nat (off + length prev)) (indicesFrom sel off prev).
Proof.
  revert off. induction prev as [|f prev IH]; intros off; [constructor|].
  rewrite indicesFrom_cons. apply Forall_app. split.
  - case_decide; repeat constructor. cbn [length]. lia.
  - eapply Forall_impl; [apply IH|]. intros z ?; cbn [length] in *. lia.
Qed.

(** X2.  A multi-selection none of whose ids is in the list: the group
    branch of [handleMove] finds no index, [Math.min ()] or [Math.max ()]
    is an infinity, and reading the [id] of the missing neighbour throws,
    in either direction. *)
Theorem moveGroup_without_live_selection st (id : string)
    (direction : Direction) :
  multiSelected id st →
  Forall (λ f, DocFile.id f ∉ selectedIds st) (files st) →
  handleMove id direction st = Throw TypeError_undefined_id.
Proof.
  intros Hmulti Hnone. unfold handleMove.
  rewrite decide_True by done.
  rewrite moveGroup_unfold. cbv zeta.
  rewrite indicesFrom_unselected by done.
  by destruct direction.
Qed.

Lemma moveGroup_without_live_selection_XY :
  multiSelected "X" (withList [entryA; entryB] {["X"; "Y"]})
  ∧ Forall (λ f, DocFile.id f ∉ ({["X"; "Y"]} : gset string))
      [entryA; entryB]
  ∧ handleMove "X" down (withList [entryA; entryB] {["X"; "Y"]})
    = Throw TypeError_undefined_id.
Proof.
  assert (multiSelected "X" (withList [entryA; entryB] {["X"; "Y"]})) as H1
    by (split; by_computation).
  assert (Forall (λ f, DocFile.id f ∉ ({["X"; "Y"]} : gset string))
            [entryA; entryB]) as H2
    by (repeat constructor; by_computation).
  split_and!; [exact H1|exact H2|].
  exact (moveGroup_without_live_selection _ "X" down H1 H2).
Defined.

Lemma Forall_filter_keep {A} (P Q : A → Prop) `{!∀ x, Decision (Q x)}
    (l : list A) :
  Forall P l → Forall P (filter Q l).
Proof.
  rewrite !Forall_forall. intros Hall x [_ Hx]%list_elem_of_filter.
  by apply Hall.
Qed.

Section moveGroup_down_facts.
Variable sel : gset string.

(** The group is already at the bottom. *)
Lemma moveGroup_down_bottom pre bottom :
  DocFile.id bottom ∈ sel →
  moveGroup sel down (pre ++ [bottom]) = Ok (pre ++ [bottom]).
Proof.
  intros Hbottom. rewrite moveGroup_unfold. cbv zeta.
  rewrite indicesFrom_app, indicesFrom_cons, decide_True by done.
  cbn [app indicesFrom imap filter list_filter].
  rewrite Math_max_upper.
  2:{ eapply Forall_impl; [apply indicesFrom_upper|].
      intros z ?; simpl in *; lia. }
  rewrite length_app. cbn [length JS.strict_eq].
  by rewrite bool_decide_true by lia.
Qed.

(** The group moves below the entry that follows its bottommost member. *)
Lemma moveGroup_down_below pre bottom below post :
  DocFile.id bottom ∈ sel →
  Forall (λ f, DocFile.id f ∉ sel) (below :: post) →
  Forall (λ f, DocFile.id f ≠ DocFile.id below) pre →
  moveGroup sel down (pre ++ bottom :: below :: post)
  = Ok (filter (λ f, DocFile.id f ∉ sel) pre
          ++ below
          :: filter (λ f, DocFile.id f ∈ sel) (pre ++ bottom :: below :: post)
          ++ post).
Proof.
  intros Hbottom Hrest Hfresh.
  assert (filter (λ f, DocFile.id f ∉ sel) (pre ++ bottom :: below :: post)
          = filter (λ f, DocFile.id f ∉ sel) pre ++ below :: post) as Hunsel.
  { rewrite filter_app, filter_cons.
    rewrite decide_False by (by intros Hn; apply Hn).
    by rewrite (filter_keep_all _ (below :: post)). }
  rewrite moveGroup_unfold. cbv zeta. rewrite Hunsel.
  assert (indicesFrom sel 0 (pre ++ bottom :: below :: post)
          = indicesFrom sel 0 pre ++ [Z.of_nat (length pre)]) as ->.
  { rewrite indicesFrom_app, indicesFrom_cons, decide_True by done.
    by rewrite (indicesFrom_unselected sel _ (below :: post)). }
  rewrite Math_max_upper.
  2:{ eapply Forall_impl; [apply indicesFrom_upper|].
      intros z ?; simpl in *; lia. }
  rewrite length_app. cbn [length JS.strict_eq].
  rewrite bool_decide_false by lia. cbn [JS.plus JS.index].
  destruct (Z.ltb_spec (Z.of_nat (length pre) + 1) 0) as [?|_]; [lia|].
  replace (Z.to_nat (Z.of_nat (length pre) + 1))
    with (length (pre ++ [bottom])) by (rewrite length_app; simpl; lia).
  replace (pre ++ bottom :: below :: post)
    with ((pre ++ [bottom]) ++ below :: post) at 1
    by (by rewrite <- app_assoc).
  rewrite list_lookup_middle by done.
  rewrite findIndex_middle by (done || by apply Forall_filter_keep).
  set (keep := filter (λ f, DocFile.id f ∉ sel) pre).
  replace (Z.of_nat (length keep) + 1)
    with (Z.of_nat (length (keep ++ [below])))
    by (rewrite length_app; simpl; lia).
  rewrite (cons_middle below keep post), app_assoc.
  rewrite splice_insert_at. by rewrite <- !app_assoc.
Qed.

End moveGroup_down_facts.

(** X1.  Moving a multi-selection down, the mirror image of moving it
    up.  Let the ids of the list be pairwise distinct and let [bottom] be
    the last selected entry.  If nothing follows it, the move changes
    nothing.  Otherwise the selected entries, in their order, go as one
    block immediately after the entry that followed [bottom], and the
    unselected entries keep their order. *)
Theorem moveGroup_down_block st (id : string) pre (bottom : DocFile.t) rest :
  NoDup (ids (files st)) →
  multiSelected id st →
  files st = pre ++ bottom :: rest →
  DocFile.id bottom ∈ selectedIds st →
  Forall (λ f, DocFile.id f ∉ selectedIds st) rest →
  handleMove id down st
  = Ok match rest with
       | [] => st
       | below :: post =>
           setFiles
             (filter (λ f, DocFile.id f ∉ selectedIds st) pre
                ++ below
                :: filter (λ f, DocFile.id f ∈ selectedIds st) (files st)
                ++ post)
             st
       end.
Proof.
  intros Hnodup Hmulti Hfiles Hbottom Hrest.
  unfold handleMove. rewrite decide_True by done. rewrite Hfiles.
  destruct rest as [|below post].
  - rewrite moveGroup_down_bottom by done. cbn.
    by rewrite <- Hfiles, setFiles_same.
  - rewrite moveGroup_down_below; [done..|].
    rewrite Hfiles in Hnodup.
    replace (pre ++ bottom :: below :: post)
      with ((pre ++ [bottom]) ++ below :: post) in Hnodup
      by (by rewrite <- app_assoc).
    apply NoDup_ids_fresh in Hnodup.
    by apply Forall_app in Hnodup as [? _].
Qed.

Lemma moveGroup_down_block_ABCD :
  NoDup (ids (files listABCD))
  ∧ multiSelected "A" listABCD
  ∧ files listABCD = [entryA; entryB] ++ entryC :: [entryD]
  ∧ DocFile.id entryC ∈ selectedIds listABCD
  ∧ Forall (λ f, DocFile.id f ∉ selectedIds listABCD) [entryD]
  ∧ handleMove "A" down listABCD
    = Ok (setFiles [entryB; entryD; entryA; entryC] listABCD).
Proof.
  assert (NoDup (ids (files listABCD))) as H1 by by_computation.
  assert (multiSelected "A" listABCD) as H2 by (split; by_computation).
  assert (files listABCD = [entryA; entryB] ++ entryC :: [entryD]) as H3
    by reflexivity.
  assert (DocFile.id entryC ∈ selectedIds listABCD) as H4 by by_computation.
  assert (Forall (λ f, DocFile.id f ∉ selectedIds listABCD) [entryD]) as H5
    by (repeat constructor; by_computation).
  split_and!; [exact H1|exact H2|exact H3|exact H4|exact H5|].
  exact (moveGroup_down_block listABCD "A" _ _ _ H1 H2 H3 H4 H5).
Defined.

(** ** Moving one entry *)

Lemma handleMove_single (id : string) (direction : Direction) st :
  ¬ multiSelected id st →
  handleMove id direction st = moveSingle id direction st.
Proof. intros Hsingle. unfold handleMove. by rewrite decide_False. Qed.



(** X4.  Up and down again.  An entry that is not first, moved up, trades
    places with the entry before it; moved down again it is back, and the
    state is the one before the two moves. *)
Theorem moveSingle_up_then_down st (x : string) l1 (a b : DocFile.t) l2 :
  ¬ multiSelected x st →
  files st = l1 ++ a :: b :: l2 →
  DocFile.id b = x →
  Forall (λ g, DocFile.id g ≠ x) (l1 ++ [a]) →
  handleMove x up st = Ok (setFiles (l1 ++ b :: a :: l2) st)
  ∧ handleMove x down (setFiles (l1 ++ b :: a :: l2) st) = Ok st.
Proof.
  intros Hsingle Hfiles Hb Hbefore. split.
  - rewrite handleMove_single by done. unfold moveSingle. rewrite Hfiles.
    replace (l1 ++ a :: b :: l2) with ((l1 ++ [a]) ++ b :: l2)
      by (by rewrite <- app_assoc).
    rewrite findIndex_middle by done.
    rewrite !length_app. cbn [length].
    rewrite decide_False by lia. rewrite decide_False by lia.
    replace (Z.of_nat (length l1 + 1) - 1) with (Z.of_nat (length l1)) by lia.
    rewrite <- app_assoc.
    pose proof (arrayMove_up l1 a [] b l2) as Hmove. cbn [app length] in Hmove.
    replace (length l1 + 1 + 0)%nat with (length l1 + 1)%nat in Hmove by lia.
    cbn [app]. by rewrite Hmove.
  - rewrite handleMove_single by (by destruct st). unfold moveSingle.
    assert (files (setFiles (l1 ++ b :: a :: l2) st) = l1 ++ b :: a :: l2)
      as -> by done.
    apply Forall_app in Hbefore as [Hl1 _].
    rewrite findIndex_middle by done.
    rewrite !length_app. cbn [length].
    rewrite decide_False by lia. rewrite decide_False by lia.
    pose proof (arrayMove_down l1 b [] a l2) as Hmove.
    cbn [app length] in Hmove.
    replace (Z.of_nat (length l1 + 1 + 0)) with (Z.of_nat (length l1) + 1)
      in Hmove by lia.
    rewrite Hmove. cbn. destruct st; cbn in *. by rewrite Hfiles.
Qed.

Lemma moveSingle_up_then_down_ABC :
  ¬ multiSelected "B" (withList [entryA; entryB; entryC] ∅)
  ∧ Forall (λ g, DocFile.id g ≠ "B") ([] ++ [entryA])
  ∧ handleMove "B" up (withList [entryA; entryB; entryC] ∅)
    = Ok (withList [entryB; entryA; entryC] ∅)
  ∧ handleMove "B" down (withList [entryB; entryA; entryC] ∅)
    = Ok (withList [entryA; entryB; entryC] ∅).
Proof.
  assert (¬ multiSelected "B" (withList [entryA; entryB; entryC] ∅)) as H1.
  { intros [Hx _]. revert Hx. apply not_elem_of_empty. }
  assert (Forall (λ g, DocFile.id g ≠ "B") ([] ++ [entryA])) as H2
    by (repeat constructor; by_computation).
  destruct (moveSingle_up_then_down _ "B" [] entryA entryB [entryC] H1
              eq_refl eq_refl H2) as [Hup Hdown].
  split_and!; [exact H1|exact H2|exact Hup|exact Hdown].
Defined.

(** ** Rotation *)

Lemma fmap_fixed {A} (h : A → A) (l : list A) :
  Forall (λ x, h x = x) l → h <$> l = l.
Proof.
  induction 1 as [|x l Hx _ IH]; [done|]. by rewrite fmap_cons, Hx, IH.
Qed.

Lemma rotate90_legal (f : DocFile.t) :
  legalRotation (DocFile.rotation f) →
  legalRotation (DocFile.rotation (rotate90 f)).
Proof.
  unfold legalRotation. destruct f as [i fl n s t p r]. cbn.
  rewrite !elem_of_cons, elem_of_nil.
  intros [->|[->|[->|[->|[]]]]]; cbn; tauto.
Qed.

(** X6.  Four quarter turns.  When the entries with id [x] have one of
    the four rotations of the type, rotating [x] four times gives back
    the state it started from. *)
Theorem handleRotate_four_times st (x : string) :
  Forall (λ f, DocFile.id f = x → legalRotation (DocFile.rotation f))
    (files st) →
  handleRotate x (handleRotate x (handleRotate x (handleRotate x st))) = st.
Proof.
  intros Hlegal. unfold handleRotate, setFiles.
  destruct st as [fs ? ? ? ? ? ? ? ? ? ?].
  cbn in *. f_equal. rewrite <- !list_fmap_compose.
  set (g := λ f, if decide (DocFile.id f = x) then rotate90 f else f).
  assert (∀ h, DocFile.id h = x → g h = rotate90 h) as Hrot.
  { intros h Hh. unfold g. by rewrite decide_True. }
  assert (∀ h, DocFile.id h ≠ x → g h = h) as Hfix.
  { intros h Hh. unfold g. by rewrite decide_False. }
  apply fmap_fixed.
  eapply Forall_impl; [exact Hlegal|]. intros f Hf. unfold compose.
  destruct (decide (DocFile.id f = x)) as [Heq|Hne].
  - rewrite (Hrot f) by done.
    rewrite (Hrot (rotate90 f)) by done.
    rewrite (Hrot (rotate90 (rotate90 f))) by done.
    rewrite (Hrot (rotate90 (rotate90 (rotate90 f)))) by done.
    by apply rotate90_four, Hf.
  - by rewrite !(Hfix f).
Qed.

Lemma handleRotate_four_times_B :
  Forall (λ f, DocFile.id f = "B" → legalRotation (DocFile.rotation f))
    (files listABC)
  ∧ handleRotate "B"
      (handleRotate "B" (handleRotate "B" (handleRotate "B" listABC)))
    = listABC
  ∧ DocFile.rotation <$> files (handleRotate "B" listABC) = [0; 90; 0].
Proof.
  assert (Forall (λ f, DocFile.id f = "B" →
                       legalRotation (DocFile.rotation f)) (files listABC))
    as H.
  { repeat constructor; intros _; by_computation. }
  split_and!; [exact H| |reflexivity].
  exact (handleRotate_four_times listABC "B" H).
Defined.

(** The fold of [handleRotate] over a list of pairwise distinct ids. *)
Lemma foldr_handleRotate st (l : list string) :
  NoDup l →
  foldr handleRotate st l
  = setFiles
      ((λ f, if decide (DocFile.id f ∈ l) then rotate90 f else f)
         <$> files st)
      st.
Proof.
  induction 1 as [|x l Hx _ IH]; cbn [foldr].
  - rewrite <- (setFiles_same st) at 1. f_equal. symmetry.
    apply fmap_fixed, Forall_forall. intros f _.
    rewrite decide_False; [done|]. apply not_elem_of_nil.
  - rewrite IH. unfold handleRotate, setFiles. destruct st; cbn. f_equal.
    rewrite <- list_fmap_compose. apply list_fmap_ext. intros _ f _. cbn.
    destruct (decide (DocFile.id f ∈ l)) as [Hin|Hnotin].
    + rewrite decide_False by (intros Heq; apply Hx; by rewrite <- Heq).
      by rewrite decide_True by (by right).
    + destruct (decide (DocFile.id f = x)) as [->|Hne].
      * by rewrite decide_True by left.
      * rewrite decide_False; [done|].
        by intros [?|?]%elem_of_cons.
Qed.

(** X8.  Rotating the selection is rotating each selected id in turn:
    every entry whose id is selected makes one quarter turn, whatever the
    order the ids are taken in. *)
Theorem handleBulkRotate_each st :
  handleBulkRotate st = foldr handleRotate st (elements (selectedIds st)).
Proof.
  rewrite foldr_handleRotate by apply NoDup_elements.
  unfold handleBulkRotate. f_equal. apply list_fmap_ext. intros _ f _.
  destruct (decide (DocFile.id f ∈ selectedIds st)) as [Hin|Hnotin].
  - by rewrite decide_True by (by apply elem_of_elements).
  - by rewrite decide_False by (by rewrite elem_of_elements).
Qed.

(** ** Deleting the selection *)

Lemma foldr_handleDelete st (l : list string) :
  foldr handleDelete st l
  = setSelectedIds (selectedIds st ∖ list_to_set l)
      (setFiles (filter (λ f, DocFile.id f ∉ l) (files st)) st).
Proof.
  induction l as [|x l IH]; cbn [foldr].
  - destruct st as [fs sel ? ? ? ? ? ? ? ? ?].
    unfold setSelectedIds, setFiles. cbn. f_equal.
    + symmetry. apply filter_keep_all, Forall_forall. intros f _.
      apply not_elem_of_nil.
    + apply leibniz_equiv. intros i.
      rewrite elem_of_difference, elem_of_empty. tauto.
  - rewrite IH. unfold handleDelete, setSelectedIds, setFiles.
    destruct st as [fs sel ? ? ? ? ? ? ? ? ?]. cbn. f_equal.
    + rewrite list_filter_filter. apply list_filter_iff. intros f.
      rewrite elem_of_cons. tauto.
    + apply leibniz_equiv. intros i.
      rewrite !elem_of_difference, elem_of_union, elem_of_singleton. tauto.
Qed.

(** X9.  Deleting the selection is deleting each selected id in turn: the
    entries whose id is selected go, the others stay in their order, and
    nothing is left selected. *)
Theorem handleBulkDelete_each st :
  handleBulkDelete st = foldr handleDelete st (elements (selectedIds st)).
Proof.
  rewrite foldr_handleDelete. rewrite list_to_set_elements_L.
  unfold handleBulkDelete, setSelectedIds, setFiles.
  destruct st as [fs sel ? ? ? ? ? ? ? ? ?]. cbn. f_equal.
  - apply list_filter_iff. intros f. by rewrite elem_of_elements.
  - symmetry. apply leibniz_equiv. intros i.
    rewrite elem_of_difference, elem_of_empty. tauto.
Qed.

(** ** The selection *)

(** X11.  [toggleSelection] is its own inverse: toggling an id twice
    gives back the state, whether or not the id was selected and whether
    or not it is in the list. *)
Theorem toggleSelection_twice st (x : string) :
  toggleSelection x (toggleSelection x st) = st.
Proof.
  unfold toggleSelection, setSelectedIds.
  destruct st as [fs sel ? ? ? ? ? ? ? ? ?]. cbn.
  destruct (decide (x ∈ sel)) as [Hin|Hout].
  - rewrite decide_False by (rewrite elem_of_difference, elem_of_singleton;
                             tauto).
    f_equal. apply leibniz_equiv. intros i.
    rewrite elem_of_union, elem_of_difference, elem_of_singleton.
    destruct (decide (i = x)) as [->|?]; tauto.
  - rewrite decide_True by (rewrite elem_of_union, elem_of_singleton; tauto).
    f_equal. apply leibniz_equiv. intros i.
    rewrite elem_of_difference, elem_of_union, elem_of_singleton.
    destruct (decide (i = x)) as [->|?]; tauto.
Qed.



(** ** Invariants of the reachable states *)

(** What ingestion leaves alone, and what the new entries look like. *)
Lemma newFilesOf_spec (fileList : list (File.t * string)) st :
  files (newFilesOf fileList st).2 = files st
  ∧ selectedIds (newFilesOf fileList st).2 = selectedIds st
  ∧ Forall2
      (λ entry f,
         DocFile.id f = generateId entry.2
         ∧ DocFile.file f = entry.1
         ∧ DocFile.name f = File.name entry.1
         ∧ DocFile.size f = File.size entry.1
         ∧ DocFile.type f = getFileType (File.name entry.1)
         ∧ DocFile.rotation f = 0
         ∧ (is_Some (DocFile.previewUrl f)
            ↔ JS.startsWith (File.type entry.1) "image/" = true))
      fileList (newFilesOf fileList st).1.
Proof.
  revert st. induction fileList as [|[file draw] rest IH]; intros st.
  - by split_and!.
  - cbn [newFilesOf].
    destruct (JS.startsWith (File.type file) "image/") eqn:Himage.
    + destruct (createObjectURL st) as [url st1] eqn:Hurl.
      assert (files st1 = files st ∧ selectedIds st1 = selectedIds st)
        as [Hf Hs].
      { unfold createObjectURL in Hurl. by injection Hurl as _ <-. }
      destruct (IH st1) as (Hfiles & Hsel & Hnew).
      destruct (newFilesOf rest st1) as [entries st2]. cbn in *.
      split_and!; [congruence|congruence|].
      constructor; [|done]. cbn. rewrite Himage. by split_and!.
    + destruct (IH st) as (Hfiles & Hsel & Hnew).
      destruct (newFilesOf rest st) as [entries st2]. cbn in *.
      split_and!; [done|done|].
      constructor; [|done]. cbn. rewrite Himage.
      by split_and!.
Qed.

Lemma handleFilesSelected_spec (fileList : list (File.t * string)) st :
  ∃ newFiles,
    files (handleFilesSelected (Some fileList) st) = files st ++ newFiles
    ∧ newFiles = (newFilesOf fileList st).1
    ∧ selectedIds (handleFilesSelected (Some fileList) st) = selectedIds st.
Proof.
  unfold handleFilesSelected.
  destruct (newFilesOf_spec fileList st) as (Hfiles & Hsel & _).
  destruct (newFilesOf fileList st) as [newFiles st'] eqn:Hnew.
  exists newFiles. cbn in *. split_and!; [by rewrite Hfiles|done|done].
Qed.

Lemma handleMerge_selectedIds (lib : PDF.Lib) st :
  selectedIds (handleMerge lib st) = selectedIds st.
Proof.
  unfold handleMerge. case_decide; [done|].
  cbn. by destruct (mergeLoop lib (files st) []).
Qed.

Lemma selection_live_Permutation st (fs : list DocFile.t) :
  fs ≡ₚ files st → selection_live st → selection_live (setFiles fs st).
Proof.
  intros Hperm Hlive i Hi. cbn in *. unfold ids. rewrite Hperm.
  by apply Hlive.
Qed.

Lemma dispatch_selection_live (lib : PDF.Lib) (ev : Event) st st' :
  dispatch lib ev st = Ok st' →
  live_event ev st →
  selection_live st → selection_live st'.
Proof.
  intros Hstep Hev Hlive.
  destruct ev; cbn in Hstep; try apply (inj Ok) in Hstep as <-.
  - destruct fileList as [fileList|]; [|done].
    destruct (handleFilesSelected_spec fileList st) as (new & Hf & _ & Hs).
    intros i. rewrite Hs, Hf. unfold ids. rewrite fmap_app, elem_of_app.
    intros Hi. left. by apply Hlive.
  - done.
  - apply handleDragEnd_Permutation in Hstep as [Hperm ->].
    by apply (selection_live_Permutation (setIsDragging false st)).
  - intros i Hi. cbn in *. rewrite ids_rotate. by apply Hlive.
  - intros i Hi. cbn in *. rewrite ids_rotate. by apply Hlive.
  - intros i. cbn. rewrite elem_of_difference, elem_of_singleton.
    intros [Hi Hne]. apply Hlive in Hi.
    apply list_elem_of_fmap in Hi as (f & -> & Hf).
    apply list_elem_of_fmap. exists f. split; [done|].
    by apply list_elem_of_filter.
  - intros i. cbn. by rewrite elem_of_empty.
  - intros i. cbn. by rewrite elem_of_empty.
  - apply handleMove_Permutation in Hstep as [Hperm ->].
    by apply selection_live_Permutation.
  - intros i. unfold toggleSelection. cbn in *. case_decide.
    + rewrite elem_of_difference. intros [Hi _]. by apply Hlive.
    + rewrite elem_of_union, elem_of_singleton.
      intros [->|Hi]; [done|by apply Hlive].
  - intros i. unfold toggleSelectAll. case_decide; cbn.
    + by rewrite elem_of_empty.
    + by rewrite elem_of_list_to_set.
  - done.
  - intros i. rewrite handleMerge_selectedIds, handleMerge_files.
    by apply Hlive.
Qed.

(** X10.  The selection follows the list.  Along every run of the
    interface, in which [toggleSelection] is called for entries of the
    list only, each selected id is the id of an entry: deleting takes the
    id out of the selection, and no other handler drops an entry whose id
    stays selected. *)
Theorem selection_stays_live (lib : PDF.Lib) st :
  reachable_live lib st → selection_live st.
Proof.
  induction 1 as [|st ev st' _ IH Hev Hstep].
  - intros i. cbn. by rewrite elem_of_empty.
  - by eapply dispatch_selection_live.
Qed.

Lemma selection_stays_live_upload :
  reachable_live sampleLib
    (handleDelete "4fzyo82mv" (toggleSelection "4fzyo82mv" afterFirstUpload))
  ∧ selection_live
      (handleDelete "4fzyo82mv" (toggleSelection "4fzyo82mv" afterFirstUpload)).
Proof.
  assert (reachable_live sampleLib
            (handleDelete "4fzyo82mv"
               (toggleSelection "4fzyo82mv" afterFirstUpload))) as H.
  { apply (reachable_live_step _
             (toggleSelection "4fzyo82mv" afterFirstUpload)
             (Delete "4fzyo82mv")); [|done|done].
    apply (reachable_live_step _ afterFirstUpload
             (ToggleSelection "4fzyo82mv")); [|cbn; by_computation|done].
    apply (reachable_live_step _ initialState
             (FilesSelected (Some firstUpload))); [constructor|done|done]. }
  split; [exact H|]. exact (selection_stays_live sampleLib _ H).
Defined.

Lemma dispatch_legalRotation (lib : PDF.Lib) (ev : Event) st st' :
  dispatch lib ev st = Ok st' →
  Forall (λ f, legalRotation (DocFile.rotation f)) (files st) →
  Forall (λ f, legalRotation (DocFile.rotation f)) (files st').
Proof.
  intros Hstep Hlegal.
  destruct ev; cbn in Hstep; try apply (inj Ok) in Hstep as <-.
  - destruct fileList as [fileList|]; [|done].
    destruct (handleFilesSelected_spec fileList st) as (new & -> & -> & _).
    apply Forall_app. split; [done|].
    destruct (newFilesOf_spec fileList st) as (_ & _ & Hnew).
    induction Hnew as [|entry f ? ? (_ & _ & _ & _ & _ & Hrot & _) _ IH];
      constructor; [|done].
    rewrite Hrot. by_computation.
  - done.
  - apply handleDragEnd_Permutation in Hstep as [Hperm _].
    by rewrite Hperm.
  - cbn. apply Forall_fmap. eapply Forall_impl; [exact Hlegal|].
    intros f Hf. cbn. case_decide; [by apply rotate90_legal|done].
  - cbn. apply Forall_fmap. eapply Forall_impl; [exact Hlegal|].
    intros f Hf. cbn. case_decide; [by apply rotate90_legal|done].
  - cbn. by apply Forall_filter_keep.
  - cbn. by apply Forall_filter_keep.
  - cbn. constructor.
  - apply handleMove_Permutation in Hstep as [Hperm _].
    by rewrite Hperm.
  - done.
  - unfold toggleSelectAll. by case_decide.
  - done.
  - by rewrite handleMerge_files.
Qed.

(** X7.  The rotation of an entry is one of 0, 90, 180 and 270 in every
    reachable state: entries are created at 0 and [handleRotate] and
    [handleBulkRotate] reduce mod 360. *)
Theorem rotation_stays_legal (lib : PDF.Lib) st :
  reachable lib st →
  Forall (λ f, legalRotation (DocFile.rotation f)) (files st).
Proof.
  induction 1 as [|st ev st' _ IH Hstep]; [constructor|].
  by eapply dispatch_legalRotation.
Qed.

Lemma rotation_stays_legal_upload :
  reachable sampleLib
    (handleRotate "4fzyo82mv" (handleRotate "4fzyo82mv" afterFirstUpload))
  ∧ DocFile.rotation
      <$> files (handleRotate "4fzyo82mv"
                   (handleRotate "4fzyo82mv" afterFirstUpload))
    = [180]
  ∧ Forall (λ f, legalRotation (DocFile.rotation f))
      (files (handleRotate "4fzyo82mv"
                (handleRotate "4fzyo82mv" afterFirstUpload))).
Proof.
  assert (reachable sampleLib
            (handleRotate "4fzyo82mv"
               (handleRotate "4fzyo82mv" afterFirstUpload))) as H.
  { apply (reachable_step _ (handleRotate "4fzyo82mv" afterFirstUpload)
             (Rotate "4fzyo82mv")); [|done].
    apply (reachable_step _ afterFirstUpload (Rotate "4fzyo82mv")); [|done].
    apply (reachable_step _ initialState
             (FilesSelected (Some firstUpload))); [constructor|done]. }
  split_and!; [exact H|reflexivity|].
  exact (rotation_stays_legal sampleLib _ H).
Defined.

(** ** Ingestion *)

Lemma newEntries_facts (fileList : list (File.t * string))
    (newFiles : list DocFile.t) :
  Forall2
    (λ entry f,
       DocFile.id f = generateId entry.2
       ∧ DocFile.file f = entry.1
       ∧ DocFile.name f = File.name entry.1
       ∧ DocFile.size f = File.size entry.1
       ∧ DocFile.type f = getFileType (File.name entry.1)
       ∧ DocFile.rotation f = 0
       ∧ (is_Some (DocFile.previewUrl f)
          ↔ JS.startsWith (File.type entry.1) "image/" = true))
    fileList newFiles →
  length newFiles = length fileList
  ∧ DocFile.name <$> newFiles = (λ entry, File.name entry.1) <$> fileList
  ∧ Forall
      (λ f, DocFile.file f ∈ fileList.*1
            ∧ DocFile.name f = File.name (DocFile.file f)
            ∧ DocFile.size f = File.size (DocFile.file f)
            ∧ DocFile.type f = getFileType (DocFile.name f)
            ∧ DocFile.rotation f = 0)
      newFiles.
Proof.
  induction 1 as [|entry f fileList newFiles
                   (_ & Hfile & Hn & Hsz & Ht & Hr & _) _ (IHl & IHn & IHf)].
  - by split_and!.
  - split_and!.
    + cbn. by rewrite IHl.
    + by rewrite !fmap_cons, Hn, IHn.
    + constructor.
      * split_and!.
        -- rewrite Hfile. apply list_elem_of_fmap. exists entry.
           split; [done|left].
        -- by rewrite Hfile, Hn.
        -- by rewrite Hfile, Hsz.
        -- by rewrite Hn.
        -- done.
      * eapply Forall_impl; [exact IHf|]. intros g (Hg & ?).
        split; [|done].
        apply list_elem_of_fmap in Hg as (e & -> & He).
        apply list_elem_of_fmap. exists e. split; [done|by right].
Qed.

(** X13.  [handleFilesSelected] appends.  The entries already in the list
    stay where they are, the new ones follow in the order of the batch,
    each with the name and size of its file, the type its name gives, and
    rotation 0; the selection is untouched, and a null file list changes
    nothing. *)
Theorem handleFilesSelected_appends st (fileList : list (File.t * string)) :
  handleFilesSelected None st = st
  ∧ ∃ newFiles,
      files (handleFilesSelected (Some fileList) st) = files st ++ newFiles
      ∧ selectedIds (handleFilesSelected (Some fileList) st) = selectedIds st
      ∧ length newFiles = length fileList
      ∧ DocFile.name <$> newFiles = (λ entry, File.name entry.1) <$> fileList
      ∧ Forall
          (λ f, DocFile.file f ∈ fileList.*1
                ∧ DocFile.name f = File.name (DocFile.file f)
                ∧ DocFile.size f = File.size (DocFile.file f)
                ∧ DocFile.type f = getFileType (DocFile.name f)
                ∧ DocFile.rotation f = 0)
          newFiles.
Proof.
  split; [done|].
  destruct (handleFilesSelected_spec fileList st) as (new & Hf & Heq & Hs).
  destruct (newFilesOf_spec fileList st) as (_ & _ & Hnew).
  rewrite <- Heq in Hnew.
  exists new. split; [exact Hf|]. split; [exact Hs|].
  by apply newEntries_facts.
Qed.

(** X14.  The preview follows the MIME type, the document type follows
    the name.  A new entry has a preview URL exactly when the MIME type
    of its file starts with "image/", whatever [getFileType] makes of its
    name; so an entry of type [text] can have a preview (a GIF), and an
    entry of type [image] can have none (a ".png" file whose MIME type
    the browser does not know). *)
Theorem preview_follows_mime st (fileList : list (File.t * string)) :
  Forall2
    (λ entry f,
       is_Some (DocFile.previewUrl f)
       ↔ JS.startsWith (File.type entry.1) "image/" = true)
    fileList (newFilesOf fileList st).1
  ∧ (∃ f, (newFilesOf gifUpload st).1 = [f]
          ∧ DocFile.type f = text ∧ is_Some (DocFile.previewUrl f))
  ∧ (∃ f, (newFilesOf [(sampleFile "scan.png" EmptyString, "0.i")] st).1 = [f]
          ∧ DocFile.type f = image ∧ DocFile.previewUrl f = None).
Proof.
  split_and!.
  - destruct (newFilesOf_spec fileList st) as (_ & _ & Hnew).
    eapply Forall2_impl; [exact Hnew|]. cbn. tauto.
  - cbn. by eexists.
  - cbn. by eexists.
Qed.

(** ** Identifiers *)

Lemma substring_length_le (n m : nat) (s : string) :
  (String.length (String.substring n m s) ≤ m)%nat.
Proof.
  revert n m. induction s as [|c s IH]; intros [|n] [|m]; cbn; try lia.
  - specialize (IH 0%nat m). lia.
  - apply (IH n 0%nat).
  - apply (IH n (S m)).
Qed.

Lemma substring_prefix (p t : string) :
  String.substring 0 (String.length p) (p +:+ t) = p.
Proof.
  induction p as [|c p IH].
  - by destruct t.
  - change (String c p +:+ t) with (String c (p +:+ t)).
    cbn [String.length String.substring]. f_equal. exact IH.
Qed.

(** X16.  An id has at most nine characters, the first nine digits after
    the point of the draw; two draws that agree in those nine digits get
    the same id, whatever follows. *)
Theorem generateId_truncates (digits rest1 rest2 : string) :
  String.length digits = 9%nat →
  generateId ("0." +:+ digits +:+ rest1) = digits
  ∧ generateId ("0." +:+ digits +:+ rest1)
    = generateId ("0." +:+ digits +:+ rest2)
  ∧ ∀ draw, (String.length (generateId draw) ≤ 9)%nat.
Proof.
  intros Hlen.
  assert (∀ rest, generateId ("0." +:+ digits +:+ rest) = digits) as Hcut.
  { intros rest. unfold generateId, JS.substr. cbn.
    rewrite <- Hlen. apply substring_prefix. }
  split_and!; [done|by rewrite !Hcut|].
  intros draw. apply substring_length_le.
Qed.

Lemma generateId_truncates_neighbours :
  String.length "4fzyo82mv" = 9%nat
  ∧ generateId "0.4fzyo82mvyq" = generateId "0.4fzyo82mvyt".
Proof.
  assert (String.length "4fzyo82mv" = 9%nat) as H by reflexivity.
  split; [exact H|].
  exact (proj1 (proj2 (generateId_truncates "4fzyo82mv" "yq" "yt" H))).
Defined.

(** ** The classifier *)

Lemma string_length_app (s t : string) :
  String.length (s +:+ t) = (String.length s + String.length t)%nat.
Proof.
  induction s as [|c s IH]; [done|].
  change (String c s +:+ t) with (String c (s +:+ t)). cbn. by rewrite IH.
Qed.

Lemma toLowerCase_app (s t : string) :
  JS.toLowerCase (s +:+ t) = JS.toLowerCase s +:+ JS.toLowerCase t.
Proof.
  induction s as [|c s IH]; [done|].
  change (String c s +:+ t) with (String c (s +:+ t)). cbn. by rewrite IH.
Qed.

Lemma substring_all (s : string) :
  String.substring 0 (String.length s) s = s.
Proof. induction s as [|c s IH]; [done|]. cbn. by rewrite IH. Qed.

Lemma endsWith_cons (a : Ascii.ascii) (x suffix : string) :
  (String.length suffix ≤ String.length x)%nat →
  JS.endsWith (String a x) suffix = JS.endsWith x suffix.
Proof.
  intros Hle. unfold JS.endsWith. cbn [String.length].
  rewrite (leb_correct _ (S _)) by lia. rewrite (leb_correct _ _ Hle).
  replace (S (String.length x) - String.length suffix)%nat
    with (S (String.length x - String.length suffix)) by lia.
  done.
Qed.

(** A suffix no longer than the extension is looked for in the extension
    alone. *)
Lemma endsWith_app_short (s t suffix : string) :
  (String.length suffix ≤ String.length t)%nat →
  JS.endsWith (s +:+ t) suffix = JS.endsWith t suffix.
Proof.
  intros Hle. induction s as [|c s IH]; [done|].
  change (String c s +:+ t) with (String c (s +:+ t)).
  rewrite endsWith_cons; [done|]. rewrite string_length_app. lia.
Qed.

(** A suffix one longer than the extension must be the extension after
    one more character. *)
Lemma endsWith_app_long (s t suffix : string) :
  String.length suffix = S (String.length t) →
  JS.endsWith (s +:+ t) suffix = true →
  ∃ c, suffix = String c t.
Proof.
  intros Hlen. induction s as [|a s IH].
  - unfold JS.endsWith. change (EmptyString +:+ t) with t.
    rewrite Hlen, leb_correct_conv by lia. done.
  - change (String a s +:+ t) with (String a (s +:+ t)).
    destruct s as [|b s].
    + change (EmptyString +:+ t) with t. unfold JS.endsWith.
      cbn [String.length]. rewrite Hlen, Nat.leb_refl, Nat.sub_diag.
      rewrite <- Hlen at 1.
      intros Heq. exists a. cbn [andb] in Heq.
      apply String.eqb_eq in Heq. rewrite <- Heq.
      rewrite Hlen. change (S (String.length t))
        with (String.length (String a t)). by rewrite substring_all.
    + rewrite endsWith_cons; [exact IH|].
      rewrite string_length_app. cbn [String.length]. lia.
Qed.

Lemma not_endsWith_app (s t suffix : string) :
  (String.length suffix ≤ S (String.length t))%nat →
  JS.endsWith t suffix = false →
  (∀ c, suffix ≠ String c t) →
  JS.endsWith (s +:+ t) suffix = false.
Proof.
  intros Hlen Hshort Hlong.
  destruct (decide (String.length suffix = S (String.length t))) as [Heq|Hne].
  - destruct (JS.endsWith (s +:+ t) suffix) eqn:Hends; [|done].
    apply endsWith_app_long in Hends as [c ->]; [|done]. by destruct (Hlong c).
  - rewrite endsWith_app_short by lia. done.
Qed.

Lemma existsb_elem {A} (p : A → bool) (l : list A) (x : A) :
  x ∈ l → p x = true → existsb p l = true.
Proof.
  intros Hx Hp. apply existsb_exists. exists x.
  split; [by apply list_elem_of_In|done].
Qed.

Ltac no_suffix :=
  rewrite not_endsWith_app;
    [ | cbn; lia | reflexivity | intros ? ?; simplify_eq ].

(** X15.  The classifier goes by the suffix of the name alone, in any
    letter case and whatever precedes it: ".pdf" gives [pdf], the four
    image suffixes give [image], the six office suffixes give [office]. *)
Theorem getFileType_by_suffix (base ext : string) :
  (JS.toLowerCase ext = ".pdf" → getFileType (base +:+ ext) = pdf)
  ∧ (JS.toLowerCase ext ∈ IMAGE_EXTENSIONS →
     getFileType (base +:+ ext) = image)
  ∧ (JS.toLowerCase ext ∈ OFFICE_EXTENSIONS →
     getFileType (base +:+ ext) = office).
Proof.
  unfold getFileType. cbv zeta. rewrite toLowerCase_app.
  set (lower := JS.toLowerCase base). split_and!.
  - intros ->. by rewrite endsWith_app_short by (cbn; lia).
  - intros Hext. generalize Hext. unfold IMAGE_EXTENSIONS at 1.
    rewrite !elem_of_cons, elem_of_nil.
    intros [Heq|[Heq|[Heq|[Heq|[]]]]]; rewrite Heq in Hext |- *;
      no_suffix;
      rewrite (existsb_elem _ _ _ Hext);
      try done; by rewrite endsWith_app_short by (cbn; lia).
  - intros Hext. generalize Hext. unfold OFFICE_EXTENSIONS at 1.
    rewrite !elem_of_cons, elem_of_nil.
    intros [Heq|[Heq|[Heq|[Heq|[Heq|[Heq|[]]]]]]]; rewrite Heq in Hext |- *;
      no_suffix;
      cbn [existsb IMAGE_EXTENSIONS];
      do 4 no_suffix;
      cbn [orb];
      rewrite (existsb_elem _ _ _ Hext);
      try done; by rewrite endsWith_app_short by (cbn; lia).
Qed.

Lemma getFileType_by_suffix_examples :
  JS.toLowerCase ".PDF" = ".pdf"
  ∧ getFileType ("Informe final" +:+ ".PDF") = pdf
  ∧ JS.toLowerCase ".JPeg" ∈ IMAGE_EXTENSIONS
  ∧ getFileType ("photo.pdf" +:+ ".JPeg") = image
  ∧ JS.toLowerCase ".xlsx" ∈ OFFICE_EXTENSIONS
  ∧ getFileType ("budget" +:+ ".xlsx") = office.
Proof.
  assert (JS.toLowerCase ".PDF" = ".pdf") as H1 by reflexivity.
  assert (JS.toLowerCase ".JPeg" ∈ IMAGE_EXTENSIONS) as H2 by by_computation.
  assert (JS.toLowerCase ".xlsx" ∈ OFFICE_EXTENSIONS) as H3 by by_computation.
  split_and!; [exact H1| |exact H2| |exact H3|].
  - exact (proj1 (getFileType_by_suffix _ _) H1).
  - exact (proj1 (proj2 (getFileType_by_suffix _ _)) H2).
  - exact (proj2 (proj2 (getFileType_by_suffix _ _)) H3).
Defined.

(** ** The output of the merge pipeline *)

Lemma mergeEntry_one_page (lib : PDF.Lib) (f : DocFile.t) pages :
  DocFile.type f ≠ pdf →
  mergeEntry lib [] f = Ok pages → length pages = 1%nat.
Proof.
  unfold mergeEntry.
  destruct (File.arrayBuffer (DocFile.file f)) as [fileBytes|]; [|done].
  cbn. destruct (DocFile.type f); [done|..].
  - intros _. destruct (isJpeg _).
    + destruct (PDF.embedJpg lib fileBytes); [|done]. by intros <-%(inj Ok).
    + destruct (PDF.embedPng lib fileBytes); [|done]. by intros <-%(inj Ok).
  - intros _. destruct (placeholderPage lib f); [|done].
    by intros <-%(inj Ok).
  - intros _. destruct (placeholderPage lib f); [|done].
    by intros <-%(inj Ok).
Qed.

(** X17.  The output follows the list.  The loop completes exactly when
    every entry can be processed on its own, and then the output is the
    pages of the entries one after the other in list order; an entry that
    is not a pdf gives exactly one page. *)
Theorem mergeLoop_in_list_order (lib : PDF.Lib) (fs : list DocFile.t)
    (out : list PDF.Page) :
  mergeLoop lib fs [] = Ok out ↔
  ∃ pss,
    Forall2
      (λ f pages,
         mergeEntry lib [] f = Ok pages
         ∧ (DocFile.type f ≠ pdf → length pages = 1%nat))
      fs pss
    ∧ out = concat pss.
Proof.
  revert out. induction fs as [|f fs IH]; intros out.
  - split.
    + intros <-%(inj Ok). exists []. by split; [constructor|].
    + intros (pss & Hpss & ->). by apply Forall2_nil_inv_l in Hpss as ->.
  - cbn [mergeLoop]. split.
    + destruct (mergeEntry lib [] f) as [pages|] eqn:Hentry; [|done]. cbn.
      rewrite mergeLoop_acc.
      destruct (mergeLoop lib fs []) as [rest|] eqn:Hrest; [|done].
      intros <-%(inj Ok).
      destruct (proj1 (IH rest) eq_refl) as (pss & Hpss & ->).
      exists (pages :: pss). split; [|done].
      constructor; [|done]. split; [done|].
      intros Htype. by eapply mergeEntry_one_page.
    + intros (pss & Hpss & ->).
      apply Forall2_cons_inv_l in Hpss
        as (pages & pss' & [Hentry _] & Hpss & ->).
      rewrite Hentry. cbn. rewrite mergeLoop_acc.
      rewrite (proj2 (IH (concat pss'))); [done|]. eauto.
Qed.

(** X18.  The page of an image entry.  The image is embedded as a JPEG
    when the MIME type is "image/jpeg" or the name ends in ".jpg" or
    ".jpeg", in any letter case, and as a PNG otherwise; the page has the
    size of the image, holds the image at the origin, and its rotation is
    the rotation of the entry, set, not added. *)
Theorem image_entry_page (lib : PDF.Lib) (f : DocFile.t)
    (pages : list PDF.Page) :
  DocFile.type f = image →
  mergeEntry lib [] f = Ok pages →
  ∃ fileBytes img,
    File.arrayBuffer (DocFile.file f) = Some fileBytes
    ∧ (if isJpeg (DocFile.file f) then PDF.embedJpg lib fileBytes
       else PDF.embedPng lib fileBytes) = Some img
    ∧ pages
      = [PDF.mkPage (PDF.width img, PDF.height img) (DocFile.rotation f)
           [PDF.drawImage img 0 0 (PDF.width img) (PDF.height img)]].
Proof.
  intros Htype. unfold mergeEntry. rewrite Htype.
  destruct (File.arrayBuffer (DocFile.file f)) as [fileBytes|]; [|done].
  cbn. destruct (isJpeg _).
  - destruct (PDF.embedJpg lib fileBytes) as [img|] eqn:Hembed; [|done].
    intros <-%(inj Ok). exists fileBytes, img. by split_and!.
  - destruct (PDF.embedPng lib fileBytes) as [img|] eqn:Hembed; [|done].
    intros <-%(inj Ok). exists fileBytes, img. by split_and!.
Qed.

Lemma image_entry_page_photo :
  DocFile.type imageEntry = image
  ∧ isJpeg (DocFile.file imageEntry) = true
  ∧ mergeEntry sampleLib [] imageEntry
    = Ok [PDF.mkPage (10, 10)%Q 90
            [PDF.drawImage (PDF.mkImage 10 10) 0 0 10 10]].
Proof.
  assert (DocFile.type imageEntry = image) as H1 by reflexivity.
  assert (mergeEntry sampleLib [] imageEntry
          = Ok [PDF.mkPage (10, 10)%Q 90
                  [PDF.drawImage (PDF.mkImage 10 10) 0 0 10 10]]) as H2
    by reflexivity.
  destruct (image_entry_page sampleLib imageEntry _ H1 H2)
    as (fileBytes & img & _ & _ & _).
  split_and!; [exact H1|reflexivity|exact H2].
Defined.

Lemma mergeLoop_rotate_placeholder (lib : PDF.Lib) (x : string)
    (fs : list DocFile.t) (mergedPdf : list PDF.Page) :
  Forall
    (λ f, DocFile.id f = x → DocFile.type f = office ∨ DocFile.type f = text)
    fs →
  mergeLoop lib
    ((λ f, if decide (DocFile.id f = x) then rotate90 f else f) <$> fs)
    mergedPdf
  = mergeLoop lib fs mergedPdf.
Proof.
  intros Hfs. revert mergedPdf.
  induction Hfs as [|f fs Hf _ IH]; intros mergedPdf; [done|].
  rewrite fmap_cons. cbn [mergeLoop].
  assert (mergeEntry lib mergedPdf
            (if decide (DocFile.id f = x) then rotate90 f else f)
          = mergeEntry lib mergedPdf f) as ->.
  { case_decide as Hid; [|done].
    unfold mergeEntry. cbn. by destruct (Hf Hid) as [-> | ->]. }
  destruct (mergeEntry lib mergedPdf f); [|done]. cbn. apply IH.
Qed.

(** X19.  Rotating a placeholder changes nothing in the output.  The page
    that stands for an office or text entry does not look at the rotation
    of the entry: after [handleRotate] on such an entry, [handleMerge]
    hands out the same document and shows the same alerts as before. *)
Theorem rotate_placeholder_no_effect (lib : PDF.Lib) st (x : string) :
  Forall
    (λ f, DocFile.id f = x → DocFile.type f = office ∨ DocFile.type f = text)
    (files st) →
  downloads (handleMerge lib (handleRotate x st))
  = downloads (handleMerge lib st)
  ∧ alerts (handleMerge lib (handleRotate x st)) = alerts (handleMerge lib st).
Proof.
  intros Hfs. unfold handleMerge, handleRotate.
  destruct st as [fs ? ? ? ? ? ? ? ? ? ?]. cbn in *.
  rewrite length_fmap. case_decide; [done|].
  rewrite mergeLoop_rotate_placeholder by done.
  by destruct (mergeLoop lib fs []).
Qed.

Lemma rotate_placeholder_no_effect_docx :
  Forall
    (λ f, DocFile.id f = "E" → DocFile.type f = office ∨ DocFile.type f = text)
    (files (withList [entryE] ∅))
  ∧ DocFile.rotation <$> files (handleRotate "E" (withList [entryE] ∅)) = [90]
  ∧ downloads (handleMerge sampleLib (handleRotate "E" (withList [entryE] ∅)))
    = downloads (handleMerge sampleLib (withList [entryE] ∅)).
Proof.
  assert (Forall
            (λ f, DocFile.id f = "E" →
                  DocFile.type f = office ∨ DocFile.type f = text)
            (files (withList [entryE] ∅))) as H.
  { repeat constructor. }
  split_and!; [exact H|reflexivity|].
  exact (proj1 (rotate_placeholder_no_effect sampleLib _ "E" H)).
Defined.

(** X20.  One merge, one outcome.  On a list that is not empty,
    [handleMerge] leaves the list, the selection and the file name as
    they are and ends with [isProcessing] false.  Either the loop
    completes: then one file is handed out, named after [fileName], or
    "documento_fusionado" when that is empty, with ".pdf" appended; no
    alert is shown; and the object URL made for it is revoked in the same
    call.  Or the loop throws: then one alert is shown and nothing is
    handed out or revoked. *)
Theorem handleMerge_outcome (lib : PDF.Lib) st :
  files st ≠ [] →
  let st' := handleMerge lib st in
  files st' = files st
  ∧ selectedIds st' = selectedIds st
  ∧ fileName st' = fileName st
  ∧ isProcessing st' = false
  ∧ ((∃ out,
        mergeLoop lib (files st) [] = Ok out
        ∧ downloads st'
          = downloads st
            ++ [((if decide (fileName st = EmptyString)
                  then "documento_fusionado" else fileName st) +:+ ".pdf",
                 out)]
        ∧ alerts st' = alerts st
        ∧ revokedURLs st' = revokedURLs st ++ [nextObjectURL st]
        ∧ nextObjectURL st ∉ objectURLs st')
     ∨ (∃ e,
          mergeLoop lib (files st) [] = Throw e
          ∧ downloads st' = downloads st
          ∧ alerts st' = alerts st ++ [merge_alert]
          ∧ revokedURLs st' = revokedURLs st)).
Proof.
  intros Hne st'. unfold st'.
  destruct (mergeLoop lib (files st) []) as [out|e] eqn:Hloop.
  - rewrite (handleMerge_success lib st out Hne Hloop).
    split_and!; [done..|]. left. exists out. split_and!; [done..|].
    cbn. rewrite elem_of_difference, elem_of_singleton. tauto.
  - rewrite (handleMerge_failure lib st e Hloop).
    split_and!; [done..|]. right. by exists e.
Qed.

Lemma handleMerge_outcome_scenario2 :
  files (withList [scenario2] ∅) ≠ []
  ∧ files (withList [entryF] ∅) ≠ []
  ∧ downloads (handleMerge sampleLib (withList [scenario2] ∅))
    = [("documento_fusionado.pdf", [samplePage 270])]
  ∧ revokedURLs (handleMerge sampleLib (withList [scenario2] ∅)) = [1%nat]
  ∧ downloads
      (handleMerge sampleLib (setFileName "tesis" (withList [scenario2] ∅)))
    = [("tesis.pdf", [samplePage 270])]
  ∧ downloads (handleMerge sampleLib (withList [entryF] ∅)) = []
  ∧ alerts (handleMerge sampleLib (withList [entryF] ∅)) = [merge_alert].
Proof.
  assert (files (withList [scenario2] ∅) ≠ []) as H by done.
  assert (files (withList [entryF] ∅) ≠ []) as H' by done.
  destruct (handleMerge_outcome sampleLib _ H) as (_ & _ & _ & _ & Hcase).
  destruct (handleMerge_outcome sampleLib _ H') as (_ & _ & _ & _ & Hcase').
  split_and!; [exact H|exact H'| | |reflexivity| |].
  - destruct Hcase as [(out & Hloop & Hdl & _)|(e & Hloop & _)];
      [|discriminate Hloop].
    apply (inj Ok) in Hloop as <-. exact Hdl.
  - destruct Hcase as [(out & _ & _ & _ & Hrev & _)|(e & Hloop & _)];
      [exact Hrev|discriminate Hloop].
  - destruct Hcase' as [(out & Hloop & _)|(e & _ & Hdl & _)];
      [discriminate Hloop|exact Hdl].
  - destruct Hcase' as [(out & Hloop & _)|(e & _ & _ & Hal & _)];
      [discriminate Hloop|exact Hal].
Defined.


(** ** Dragging one entry *)

(** X21.  The single-item drag.  When the dragged entry is not part of a
    multi-selection, dropping it on another entry of the list takes it
    out and puts it back at the index of the target, and the entries
    between the two places move one place towards the place it left;
    dropping it on nothing or on itself only clears [isDragging]. *)
Theorem single_drag_moves st (activeId overId : string) :
  ¬ multiSelected activeId st →
  activeId ≠ overId →
  activeId ∈ ids (files st) →
  overId ∈ ids (files st) →
  handleDragEnd activeId None st = Ok (setIsDragging false st)
  ∧ handleDragEnd activeId (Some activeId) st = Ok (setIsDragging false st)
  ∧ ∃ (oldIndex newIndex : nat) (a o : DocFile.t) l1 l2 l3,
      list_find (λ i, DocFile.id i = activeId) (files st) = Some (oldIndex, a)
      ∧ list_find (λ i, DocFile.id i = overId) (files st)
        = Some (newIndex, o)
      ∧ (((oldIndex < newIndex)%nat
          ∧ files st = l1 ++ a :: l2 ++ o :: l3
          ∧ handleDragEnd activeId (Some overId) st
            = Ok (setFiles (l1 ++ l2 ++ o :: a :: l3)
                    (setIsDragging false st)))
         ∨ ((newIndex < oldIndex)%nat
            ∧ files st = l1 ++ o :: l2 ++ a :: l3
            ∧ handleDragEnd activeId (Some overId) st
              = Ok (setFiles (l1 ++ a :: o :: l2 ++ l3)
                      (setIsDragging false st)))).
Proof.
  intros Hsingle Hne Hacti Hoveri. split_and!.
  - done.
  - unfold handleDragEnd. by rewrite decide_True.
  - assert (is_Some (list_find (λ i, DocFile.id i = activeId) (files st)))
      as [[i a] Hfa].
    { destruct (proj1 (list_elem_of_fmap _ _ _) Hacti) as (f & -> & Hf).
      by eapply list_find_elem_of. }
    assert (is_Some (list_find (λ i, DocFile.id i = overId) (files st)))
      as [[j o] Hfo].
    { destruct (proj1 (list_elem_of_fmap _ _ _) Hoveri) as (f & -> & Hf).
      by eapply list_find_elem_of. }
    pose proof Hfa as (Hia & Ha & _)%list_find_Some.
    pose proof Hfo as (Hjo & Ho & _)%list_find_Some.
    assert (handleDragEnd activeId (Some overId) st
            = commitFiles (arrayMove (files st) (Z.of_nat i) (Z.of_nat j))
                (setIsDragging false st)) as ->.
    { unfold handleDragEnd. rewrite decide_False by done.
      rewrite decide_False by (by destruct st). unfold singleDrag.
      cbn [files setIsDragging].
      by rewrite (findIndex_Some _ _ _ _ Hfa), (findIndex_Some _ _ _ _ Hfo). }
    destruct (Nat.lt_total i j) as [Hlt|[->|Hgt]].
    + destruct (two_places (files st) i j a o)
        as (l1 & l2 & l3 & Hitems & <- & <-); [done..|].
      exists (length l1), (length l1 + 1 + length l2)%nat, a, o, l1, l2, l3.
      split_and!; [done..|]. left. split_and!; [lia|done|].
      rewrite Hitems at 1. by rewrite arrayMove_down.
    + congruence.
    + destruct (two_places (files st) j i o a)
        as (l1 & l2 & l3 & Hitems & <- & <-); [done..|].
      exists (length l1 + 1 + length l2)%nat, (length l1), a, o, l1, l2, l3.
      split_and!; [done..|]. right. split_and!; [lia|done|].
      rewrite Hitems at 1. by rewrite arrayMove_up.
Qed.

Lemma single_drag_moves_scenario4 :
  ¬ multiSelected "A" (withList [entryA; entryB; entryC; entryD] ∅)
  ∧ "A" ≠ "C"
  ∧ "A" ∈ ids [entryA; entryB; entryC; entryD]
  ∧ "C" ∈ ids [entryA; entryB; entryC; entryD]
  ∧ handleDragEnd "A" None (withList [entryA; entryB; entryC; entryD] ∅)
    = Ok (withList [entryA; entryB; entryC; entryD] ∅)
  ∧ handleDragEnd "A" (Some "C")
      (withList [entryA; entryB; entryC; entryD] ∅)
    = Ok (withList [entryB; entryC; entryA; entryD] ∅).
Proof.
  assert (¬ multiSelected "A" (withList [entryA; entryB; entryC; entryD] ∅))
    as H1.
  { intros [Hx _]. revert Hx. apply not_elem_of_empty. }
  assert ("A" ≠ "C") as H2 by done.
  assert ("A" ∈ ids [entryA; entryB; entryC; entryD]) as H3 by by_computation.
  assert ("C" ∈ ids [entryA; entryB; entryC; entryD]) as H4 by by_computation.
  destruct (single_drag_moves _ "A" "C" H1 H2 H3 H4) as (Hnone & _ & _).
  split_and!; [exact H1|exact H2|exact H3|exact H4|exact Hnone|reflexivity].
Defined.
